(** * singlet.dataset.plot: colour and size encoding of the plotting layer

    A shallow embedding of the parts of [singlet/dataset/plot.py] that
    decide how rows are coloured, sized, tiered and handed to the drawing
    calls: [Plot._sanitize_plot_properties], [Plot._update_properties],
    the colouring body of [Plot.scatter_reduced], the qualitative
    annotation branch of [Plot.clustermap] and the size/shade loop of
    [Plot.dot_plot].

    Numbers.  numpy's float64 is idealised as an exact rational or one of
    the three IEEE special values; rounding and the sign of zero are not
    modelled.  [np.log10], colormaps and [matplotlib.colors.to_rgba] are
    library functions and stay uninterpreted. *)

From Stdlib Require Import QArith Qminmax Qround Qpower Lqa Lia.
From stdpp Require Import gmap strings list sorting.

Local Open Scope Q_scope.

(** ** float64 values *)

Inductive float64 : Type :=
  | Fin (q : Q)
  | PInf
  | NInf
  | NaN.

(** [np.isnan] *)
Definition isnan (x : float64) : bool :=
  match x with NaN => true | _ => false end.

Definition is_zero (q : Q) : bool := Qeq_bool q 0.
Definition is_neg (q : Q) : bool := negb (Qle_bool 0 q).

Definition fneg (x : float64) : float64 :=
  match x with
  | Fin q => Fin (- q)
  | PInf => NInf
  | NInf => PInf
  | NaN => NaN
  end.

Definition fadd (x y : float64) : float64 :=
  match x, y with
  | NaN, _ | _, NaN => NaN
  | PInf, NInf | NInf, PInf => NaN
  | PInf, _ | _, PInf => PInf
  | NInf, _ | _, NInf => NInf
  | Fin a, Fin b => Fin (a + b)
  end.

Definition fsub (x y : float64) : float64 := fadd x (fneg y).

(** Sign of an infinity scaled by a finite factor; a zero factor has no
    sign to give and yields NaN. *)
Definition inf_times (pos : bool) (q : Q) : float64 :=
  if is_zero q then NaN
  else if xorb pos (is_neg q) then PInf else NInf.

Definition fmul (x y : float64) : float64 :=
  match x, y with
  | NaN, _ | _, NaN => NaN
  | Fin a, Fin b => Fin (a * b)
  | PInf, PInf | NInf, NInf => PInf
  | PInf, NInf | NInf, PInf => NInf
  | PInf, Fin q | Fin q, PInf => inf_times true q
  | NInf, Fin q | Fin q, NInf => inf_times false q
  end.

(** numpy division: a zero divisor raises nothing, it gives NaN for 0/0
    and an infinity otherwise. *)
Definition fdiv (x y : float64) : float64 :=
  match x, y with
  | NaN, _ | _, NaN => NaN
  | Fin a, Fin b =>
      if is_zero b then
        if is_zero a then NaN
        else if is_neg a then NInf else PInf
      else Fin (a / b)
  | Fin _, (PInf | NInf) => Fin 0
  | (PInf | NInf), (PInf | NInf) => NaN
  | PInf, Fin b => if is_neg b then NInf else PInf
  | NInf, Fin b => if is_neg b then PInf else NInf
  end.

(** [x ** 2] *)
Definition fsquare (x : float64) : float64 := fmul x x.

(** Comparisons; every comparison with NaN is false. *)
Definition fleb (x y : float64) : bool :=
  match x, y with
  | NaN, _ | _, NaN => false
  | NInf, _ | _, PInf => true
  | Fin a, Fin b => Qle_bool a b
  | _, _ => false
  end.

Definition feqb (x y : float64) : bool := fleb x y && fleb y x.
Definition fltb (x y : float64) : bool := fleb x y && negb (fleb y x).

(** Equality of float64 values as numbers (rationals up to [Qeq]). *)
Definition feq (x y : float64) : Prop :=
  match x, y with
  | Fin a, Fin b => a == b
  | PInf, PInf | NInf, NInf | NaN, NaN => True
  | _, _ => False
  end.


(** [(v - lo) / (hi - lo)], the rescaling written at both colouring
    sites ([cd_norm] in [scatter_reduced], [shade] in [dot_plot]). *)
Definition normalize (v lo hi : float64) : float64 :=
  fdiv (fsub v lo) (fsub hi lo).

(** ** Decimal brackets for log10 *)







(** ** dot_plot: size of a dot *)

(** [size_fun], the closure of [dot_plot] over [min_size]. *)
Definition size_fun (min_size : float64) (fraction : float64) : float64 :=
  fadd min_size (fsquare (fmul fraction (Fin 11))).

(** ** Plot properties: alias renaming and defaults *)

Section PlotProperties.
Context {V : Type}.

(** The [aliases] table of [_sanitize_plot_properties], long name
    first, in the order the dictionary literal lists them. *)
Definition aliases : list (string * string) :=
  [ ("linewidth", "lw");
    ("antialiased", "aa");
    ("color", "c");
    ("linestyle", "ls");
    ("markeredgecolor", "mec");
    ("markeredgewidth", "mew");
    ("markerfacecolor", "mfc");
    ("markerfacecoloralt", "mfcalt");
    ("markersize", "ms") ]%string.

(** One turn of the loop: [if alias in kwargs: kwargs[key] =
    kwargs.pop(alias)]. *)
Definition rename_alias (kwargs : gmap string V) (ka : string * string)
  : gmap string V :=
  match kwargs !! ka.2 with
  | Some v => <[ka.1 := v]> (delete ka.2 kwargs)
  | None => kwargs
  end.

Definition sanitize_with (al : list (string * string))
    (kwargs : gmap string V) : gmap string V :=
  foldl rename_alias kwargs al.

Definition _sanitize_plot_properties (kwargs : gmap string V)
  : gmap string V :=
  sanitize_with aliases kwargs.

(** One turn of the loop over [defaults.items()]. *)
Definition fill_default (key : string) (val : V) (kwargs : gmap string V)
  : gmap string V :=
  match kwargs !! key with
  | Some _ => kwargs
  | None => <[key := val]> kwargs
  end.

(** Both dictionaries are mutated; the pair is (kwargs, defaults) as
    they stand when the call returns. *)
Definition _update_properties (kwargs defaults : gmap string V)
  : gmap string V * gmap string V :=
  let kwargs1 := _sanitize_plot_properties kwargs in
  let defaults1 := _sanitize_plot_properties defaults in
  (map_fold fill_default kwargs1 defaults1, defaults1).

(** What a lookup finds once the aliases in [al] are renamed: nothing
    under a short name, the value given under the alias (or else under
    the long name itself) for a long name, the old value elsewhere. *)
Definition renamed_lookup (al : list (string * string))
    (kwargs : gmap string V) (k : string) : option V :=
  if decide (k ∈ al.*2) then None
  else match list_find (λ ka, ka.1 = k) al with
       | Some (_, ka) =>
           match kwargs !! ka.2 with
           | Some v => Some v
           | None => kwargs !! k
           end
       | None => kwargs !! k
       end.
End PlotProperties.

(** ** Exceptions and results *)

Inductive exn : Type :=
  | ValueError
  | IndexError
  | TypeError
  | KeyError
  | UnboundLocalError.

Definition result (A : Type) : Type := exn + A.

Definition raise {A : Type} (e : exn) : result A := inl e.
Definition ret {A : Type} (a : A) : result A := inr a.

Definition bind {A B : Type} (m : result A) (k : A → result B) : result B :=
  match m with
  | inl e => inl e
  | inr a => k a
  end.

Notation "'let*' x ':=' m 'in' k" := (bind m (λ x, k))
  (at level 10, x name, m at level 100, k at level 200).

Definition succeeded {A : Type} (m : result A) : bool :=
  match m with inr _ => true | inl _ => false end.

Fixpoint mapM {A B : Type} (f : A → result B) (l : list A) : result (list B) :=
  match l with
  | [] => ret []
  | a :: l' => let* b := f a in let* bs := mapM f l' in ret (b :: bs)
  end.

(** ** Colours and palettes *)

Inductive color : Type :=
  | Named (name : string)
  | Rgba (r g b a : Q).

(** What [cmap] may hold when the colouring code runs: a registered
    colormap name, a colormap object, a dict or a sequence of colours. *)
Inductive palette : Type :=
  | ByName (name : string)
  | Colormap (f : float64 → color)
  | Mapping (m : gmap string color)
  | Listed (l : list color).

(** Values found in a keyword-argument dictionary. *)
Inductive pval : Type :=
  | PNum (x : float64)
  | PStr (s : string)
  | PColor (c : color)
  | PNums (xs : list float64)
  | PColors (cs : list color).

(** ** numpy helpers *)

(** [np.linspace(0, 1, n)] *)
Definition linspace01 (n : nat) : list Q :=
  match n with
  | O => []
  | S O => [0]
  | S m => (λ i, inject_Z (Z.of_nat i) / inject_Z (Z.of_nat m)) <$> seq 0 n
  end.

(** Order of labels: code points, as Python compares [str]. *)
Definition label_le (s1 s2 : string) : Prop := String.leb s1 s2 = true.

Global Instance label_le_dec s1 s2 : Decision (label_le s1 s2).
Proof. unfold label_le. apply _. Defined.

(** [np.unique] on a column of labels: the distinct labels, sorted. *)
Definition np_unique (values : list string) : list string :=
  merge_sort label_le (remove_dups values).

(** [l.index(x)]: position of the first occurrence. *)
Definition index (x : string) (l : list string) : result nat :=
  match list_find (λ y, y = x) l with
  | Some (i, _) => ret i
  | None => raise ValueError
  end.

(** [a[i]] on an array, for a non-negative [i]. *)
Definition getitem {A : Type} (a : list A) (i : nat) : result A :=
  match a !! i with
  | Some x => ret x
  | None => raise IndexError
  end.

(** [a[[i0, i1, ...]]]: selection by a list of positions. *)
Definition take_indices {A : Type} (a : list A) (idx : list nat)
  : result (list A) :=
  mapM (getitem a) idx.

(** [a[mask]] with a boolean mask, which must be as long as [a]. *)
Definition select {A : Type} (a : list A) (mask : list bool) : list A :=
  fst <$> filter (λ xm : A * bool, Is_true xm.2) (zip a mask).

Definition mask_index {A : Type} (a : list A) (mask : list bool)
  : result (list A) :=
  if decide (length a = length mask) then ret (select a mask)
  else raise IndexError.

(** [dict(zip(keys, vals))]: later pairs overwrite earlier ones. *)
Definition dict_zip {A : Type} (keys : list string) (vals : list A)
  : gmap string A :=
  foldl (λ m kv, <[kv.1 := kv.2]> m) ∅ (zip keys vals).

(** [d.update(other)]: every item of [other] is written into [d]. *)
Definition dict_update {A : Type} (d other : gmap string A) : gmap string A :=
  map_fold (λ k v acc, <[k := v]> acc) d other.

Notation "'let*' ' p ':=' m 'in' k" :=
  (bind m (λ x, match x with p => k end))
  (at level 10, p pattern, m at level 100, k at level 200).

(** The palette holds a colour for every distinct label: always so for a
    colormap or a dict with a default, and for a list when it is long
    enough. *)
Definition covers (cmap : palette) (values : list string) : Prop :=
  match cmap with
  | Listed l => (length (np_unique values) ≤ length l)%nat
  | _ => True
  end.

(** [a.min()] and [a.max()]: a NaN anywhere makes the result NaN, an
    empty array raises. *)
Definition fmin2 (a b : float64) : float64 :=
  if isnan a || isnan b then NaN else if fleb a b then a else b.

Definition fmax2 (a b : float64) : float64 :=
  if isnan a || isnan b then NaN else if fleb a b then b else a.

Definition np_min (a : list float64) : result float64 :=
  match a with
  | [] => raise ValueError
  | x :: a' => ret (foldl fmin2 x a')
  end.

Definition np_max (a : list float64) : result float64 :=
  match a with
  | [] => raise ValueError
  | x :: a' => ret (foldl fmax2 x a')
  end.

(** The order [np.sort] uses on an array without NaN. *)
Definition sort_le (x y : float64) : Prop := fleb x y = true.

Global Instance sort_le_dec x y : Decision (sort_le x y).
Proof. unfold sort_le. apply _. Defined.

Definition notnan (x : float64) : Prop := isnan x = false.

Global Instance notnan_dec x : Decision (notnan x).
Proof. unfold notnan. apply _. Defined.

(** Distinct values in order of first appearance; NaN counts as equal to
    NaN, as in [pandas.unique]. *)
Definition same_value (x y : float64) : bool :=
  feqb x y || (isnan x && isnan y).

Fixpoint unique_values (l : list float64) : list float64 :=
  match l with
  | [] => []
  | x :: l' =>
      x :: filter (λ y, Is_true (negb (same_value x y))) (unique_values l')
  end.

(** [np.unique] on a float array: sorted distinct numbers, then one NaN
    when the array holds any. *)
Definition np_unique_float (a : list float64) : list float64 :=
  merge_sort sort_le (unique_values (filter notnan a))
    ++ (if existsb isnan a then [NaN] else []).

(** ** pandas.qcut *)

(** [qcut(x, q, labels=False, duplicates='drop')] is library code; the
    model follows its steps: drop NaN, take the quantiles of the rest
    with linear interpolation, drop repeated edges, locate every entry
    among the edges with the lowest edge included. *)

Definition lerp (a b : float64) (t : Q) : float64 :=
  fadd a (fmul (fsub b a) (Fin t)).

Definition quantile (sorted : list float64) (p : Q) : float64 :=
  match sorted with
  | [] => NaN
  | _ =>
      let n1 := (length sorted - 1)%nat in
      let h := p * inject_Z (Z.of_nat n1) in
      let lo := Z.to_nat (Qfloor h) in
      let hi := Nat.min (lo + 1) n1 in
      lerp (nth lo sorted NaN) (nth hi sorted NaN) (h - inject_Z (Qfloor h))
  end.

(** [bins.searchsorted(v, side='left')] on sorted [bins]: how many
    leading edges are below [v]; NaN sorts after everything. *)
Fixpoint searchsorted_left (bins : list float64) (v : float64) : nat :=
  match bins with
  | [] => O
  | b :: bins' =>
      if isnan v || fltb b v then S (searchsorted_left bins' v) else O
  end.

Definition nat_to_float (n : nat) : float64 := Fin (inject_Z (Z.of_nat n)).

(** One entry of [_bins_to_cuts] with [include_lowest=True],
    [labels=False]. *)
Definition bin_code (bins : list float64) (v : float64) : float64 :=
  let ids := if feqb v (nth 0 bins NaN) then 1%nat
             else searchsorted_left bins v in
  if isnan v || Nat.eqb ids (length bins) || Nat.eqb ids 0 then NaN
  else nat_to_float (ids - 1).

Definition qcut_bins (x : list float64) (quantiles : list Q) : list float64 :=
  let x_np := filter notnan x in
  let bins := quantile (merge_sort sort_le x_np) <$> quantiles in
  let unique_bins := unique_values bins in
  if decide (length unique_bins < length bins ∧ length bins ≠ 2)%nat
  then unique_bins else bins.

Definition qcut (x : list float64) (quantiles : list Q) : list float64 :=
  bin_code (qcut_bins x quantiles) <$> x.

(** ** scatter_reduced *)

(** A column of the metadata sheet: labels (a categorical or non-numeric
    dtype; labels are represented by strings) or numbers. *)
Inductive column : Type :=
  | Labels (values : list string)
  | Numbers (values : list float64).

(** [metadata] and [data] as the first lines of [scatter_reduced] select
    them (sample sheet and counts, or feature sheet and transposed
    counts); [pseudocount] is [dataset.counts.pseudocount]. *)
Record dataset : Type := {
  metadata : gmap string column;
  data : gmap string (list float64);
  pseudocount : float64
}.

(** One [vec.plot(kind='scatter', ax=ax, **kw)]: the rows of
    [vectors_reduced] it draws and the keywords it receives. *)
Record scatter_call : Type := {
  rows : list nat;
  kw : gmap string pval
}.

(** The axes handle: the attribute [_singlet_cmap] when it exists, and
    the scatter calls made on it so far. *)
Record axes : Type := {
  _singlet_cmap : option (gmap string color);
  scattered : list scatter_call
}.

(** [plt.subplots(...)] gives axes without the attribute. *)
Definition new_axes : axes := {| _singlet_cmap := None; scattered := [] |}.

Definition is_str (v : pval) : bool :=
  match v with
  | PStr _ | PColor (Named _) => true
  | _ => false
  end.

(** [np.isscalar] *)
Definition isscalar (v : pval) : bool :=
  match v with
  | PNum _ | PStr _ | PColor (Named _) => true
  | _ => false
  end.

(** [len(v)] *)
Definition len (v : pval) : result nat :=
  match v with
  | PNum _ => raise TypeError
  | PStr s => ret (String.length s)
  | PColor (Named s) => ret (String.length s)
  | PColor (Rgba _ _ _ _) => ret 4%nat
  | PNums xs => ret (length xs)
  | PColors cs => ret (length cs)
  end.

(** [v[ind]] with a boolean array [ind] *)
Definition pval_mask (v : pval) (ind : list bool) : result pval :=
  match v with
  | PNums xs => let* r := mask_index xs ind in ret (PNums r)
  | PColors cs => let* r := mask_index cs ind in ret (PColors r)
  | _ => raise TypeError
  end.

Section Encoder.
(** Library functions the colouring code calls and this development
    leaves uninterpreted: [np.log10], the colour table behind
    [matplotlib.colors.to_rgba] and the colormap registry behind
    [cm.get_cmap]. *)
Variable log10 : float64 → float64.
Variable named_rgb : string → Q * Q * Q.
Variable get_cmap : string → float64 → color.

(** [mpl.colors.to_rgba(c, alpha=alpha)] *)
Definition to_rgba (c : color) (alpha : Q) : color :=
  match c with
  | Named name => let '(r, g, b) := named_rgb name in Rgba r g b alpha
  | Rgba r g b _ => Rgba r g b alpha
  end.

(** Calling [cmap(...)]: a colormap, by name or as an object, can be
    called; a dict or a list cannot. *)
Definition as_callable (cmap : palette) : result (float64 → color) :=
  match cmap with
  | ByName name => ret (get_cmap name)
  | Colormap f => ret f
  | Mapping _ | Listed _ => raise TypeError
  end.

(** Lines 496-502: the distinct labels and one colour per label. *)
Definition category_colors (cmap : palette) (default_color : color)
    (cd_unique : list string) : list color :=
  match cmap with
  | ByName name => (λ q, get_cmap name (Fin q)) <$> linspace01 (length cd_unique)
  | Colormap f => (λ q, f (Fin q)) <$> linspace01 (length cd_unique)
  | Mapping m => (λ x, default default_color (m !! x)) <$> cd_unique
  | Listed l => l
  end.

(** Lines 494-510: colours of a categorical column, and the axes with
    the mapping recorded. *)
Definition color_categorical (values : list string) (cmap : palette)
    (default_color : color) (ax : axes) : result (list color * axes) :=
  let cd_unique := np_unique values in
  let c_unique := category_colors cmap default_color cd_unique in
  let* idx := mapM (λ x, index x cd_unique) values in
  let* c := take_indices c_unique idx in
  let recorded := default ∅ (_singlet_cmap ax) in
  ret (c, {| _singlet_cmap :=
               Some (dict_update recorded (dict_zip cd_unique c_unique));
             scattered := scattered ax |}).

(** What the numeric branch computes: the colour array, the tiers and
    the resolved domain. *)
Record continuous : Type := {
  colors : list color;
  tiers_of : list float64;
  cd_min : float64;
  cd_max : float64;
  cd_norm : list float64
}.

(** Lines 512-547. [tiers] is the array of ones set before the
    branch. *)
Definition color_continuous (values : list float64) (by_phenotype : bool)
    (color_log : option bool) (cmap : palette) (default_color : color)
    (pseudocount : float64) (high_on_top : bool) (tiers : list float64)
  : result continuous :=
  let unmask :=
    if existsb isnan values then (λ v, negb (isnan v)) <$> values
    else replicate (length values) true in
  let* cd_min := np_min (select values unmask) in
  let* cd_max := np_max (select values unmask) in
  let color_log := default (negb by_phenotype) color_log in
  let '(color_data, cd_min, cd_max) :=
    if color_log then
      let pc := if by_phenotype then fmul (Fin (1 # 10)) cd_min
                else pseudocount in
      ((λ v, log10 (fadd v pc)) <$> values,
       log10 (fadd cd_min pc), log10 (fadd cd_max pc))
    else (values, cd_min, cd_max) in
  let cd_norm := (λ v, normalize v cd_min cd_max) <$> color_data in
  let tiers :=
    if high_on_top then qcut cd_norm (linspace01 5) else tiers in
  let* f := as_callable cmap in
  let c := zip_with (λ (m : bool) v,
               if m then f v else to_rgba default_color (3 # 10))
             unmask cd_norm in
  ret {| colors := c; tiers_of := tiers; cd_min := cd_min;
         cd_max := cd_max; cd_norm := cd_norm |}.

(** Lines 552-566: one turn of the loop over [tiers_unique]. *)
Definition scatter_tier (n_rows : nat) (tiers : list float64)
    (kwargs : gmap string pval) (t : float64) : result scatter_call :=
  let ind := (λ x, feqb x t) <$> tiers in
  let* vec := mask_index (seq 0 n_rows) ind in
  let kw := kwargs in
  let* kw :=
    match kw !! "c" with
    | Some c =>
        if is_str c then ret kw
        else
          let* n := len c in
          if decide (n = length vec) then
            let* c' := pval_mask c ind in ret (<["c" := c']> kw)
          else ret kw
    | None => ret kw
    end in
  let* s := match kw !! "s" with
            | Some s => ret s
            | None => raise KeyError
            end in
  let* kw :=
    if isscalar s then ret kw
    else let* s' := pval_mask s ind in ret (<["s" := s']> kw) in
  ret {| rows := vec; kw := kw |}.

(** Lines 479-492: where the colouring data come from. *)
Definition lookup_color_data (ds : dataset) (color_by : string)
  : result (list string + list float64 * bool) :=
  match metadata ds !! color_by with
  | Some (Labels v) => ret (inl v)
  | Some (Numbers v) => ret (inr (v, true))
  | None =>
      match data ds !! color_by with
      | Some v => ret (inr (v, false))
      | None => raise ValueError
      end
  end.

(** Lines 465-576, after [data] and [metadata] are chosen; [n_rows] is
    [vectors_reduced.shape[0]]. *)
Definition scatter_reduced (ds : dataset) (n_rows : nat)
    (color_by : option string) (color_log : option bool) (cmap : palette)
    (default_color : color) (ax : option axes) (high_on_top : bool)
    (kwargs : gmap string pval) : result axes :=
  let ax := default new_axes ax in
  let defaults : gmap string pval := {[ "s" := PNum (Fin 90) ]} in
  let kwargs := (_update_properties kwargs defaults).1 in
  let tiers := replicate n_rows (Fin 1) in
  let* '(kwargs, tiers, ax) :=
    match color_by with
    | None => ret (<["color" := PColor default_color]> kwargs, tiers, ax)
    | Some name =>
        let* src := lookup_color_data ds name in
        match src with
        | inl values =>
            let* '(c, ax) := color_categorical values cmap default_color ax in
            ret (<["c" := PColors c]> kwargs, tiers, ax)
        | inr (values, by_phenotype) =>
            let* r := color_continuous values by_phenotype color_log cmap
                        default_color (pseudocount ds) high_on_top tiers in
            ret (<["c" := PColors (colors r)]> kwargs, tiers_of r, ax)
        end
    end in
  let* calls := mapM (scatter_tier n_rows tiers kwargs)
                  (np_unique_float tiers) in
  ret {| _singlet_cmap := _singlet_cmap ax;
         scattered := scattered ax ++ calls |}.
End Encoder.

(** ** clustermap: a qualitative annotation with an explicit palette *)

(** Lines 759-770, the branch taken when the annotation value [val] is
    not a string and the column is qualitative.  [palette] is the local
    variable of that name as the earlier annotations left it ([None]
    while nothing was assigned to it); the length test reads it before
    [palette = val] is executed.  The result is the colours [c] and the
    value of [palette] afterwards. *)
Definition annotate_qualitative (palette : option (list color))
    (val : list color) (values : list string)
  : result (list color * list color) :=
  let cd_unique := np_unique values in
  let n_colors := length cd_unique in
  let* tested := match palette with
                 | Some p => ret p
                 | None => raise UnboundLocalError
                 end in
  if decide (length tested < n_colors)%nat then raise ValueError
  else
    let palette := val in
    let* c := mapM (λ x, let* i := index x cd_unique in getitem palette i)
                values in
    ret (c, palette).

(** ** dot_plot: sizes and shades *)

(** A row of the [points] frame, indexed by (count, group); [pt_s] and
    [pt_c] are its columns ['s'] and ['c']. *)
Record point : Type := {
  fraction : float64;
  level : float64;
  pt_s : float64;
  pt_c : float64
}.

(** [vmin] / [vmax]: ['min'] / ['max'] over the whole plot,
    ['min_single'] / ['max_single'] over one element of [plot_list], or
    a number. *)
Inductive bound : Type :=
  | Overall
  | Single
  | Given (v : float64).

Definition levels (points : gmap (string * string) point) : list float64 :=
  (λ kp, level kp.2) <$> map_to_list points.

Definition levels_of (points : gmap (string * string) point) (count : string)
  : list float64 :=
  (λ kp, level kp.2)
    <$> filter (λ kp : string * string * point, kp.1.1 = count)
          (map_to_list points).

Definition resolve_bound (pick : list float64 → result float64) (b : bound)
    (points : gmap (string * string) point) (count : string)
  : result float64 :=
  match b with
  | Overall => pick (levels points)
  | Single => pick (levels_of points count)
  | Given v => ret v
  end.

(** Lines 1200-1206: the inner loop over [groups]. *)
Fixpoint shade_groups (min_size vm vM : float64) (gexist : list string)
    (count : string) (groups : list string)
    (points : gmap (string * string) point)
  : result (gmap (string * string) point) :=
  match groups with
  | [] => ret points
  | gr :: groups' =>
      if decide (gr ∈ gexist) then
        match points !! (count, gr) with
        | None => raise KeyError
        | Some p =>
            let size := size_fun min_size (fraction p) in
            let shade := normalize (level p) vm vM in
            shade_groups min_size vm vM gexist count groups'
              (<[(count, gr) := {| fraction := fraction p; level := level p;
                                   pt_s := size; pt_c := shade |}]> points)
        end
      else shade_groups min_size vm vM gexist count groups' points
  end.

(** Lines 1185-1206: the loop over [plot_list]. *)
Fixpoint shade_points (vmin vmax : bound) (min_size : float64)
    (gexist groups : list string) (plot_list : list string)
    (points : gmap (string * string) point)
  : result (gmap (string * string) point) :=
  match plot_list with
  | [] => ret points
  | count :: plot_list' =>
      let* vm := resolve_bound np_min vmin points count in
      let* vM := resolve_bound np_max vmax points count in
      let* points := shade_groups min_size vm vM gexist count groups points in
      shade_points vmin vmax min_size gexist groups plot_list' points
  end.

(** ** Inputs for worked examples *)

(** Stand-ins for the uninterpreted library functions, so that the model
    runs on concrete inputs: a grey ramp that maps a non-finite value to
    transparent black, as a colormap does for bad values by default, and
    a colour table that knows ['darkgrey'].  [ex_log10] is only a
    placeholder: the examples show where it is applied and never use
    what it returns. *)
Definition ex_cmap (x : float64) : color :=
  match x with
  | Fin q => Rgba q q q 1
  | _ => Rgba 0 0 0 0
  end.

Definition ex_log10 (x : float64) : float64 := x.

Definition ex_named_rgb (name : string) : Q * Q * Q :=
  if decide (name = "darkgrey") then (169 # 255, 169 # 255, 169 # 255)
  else (0, 0, 0).

Definition ex_get_cmap (name : string) : float64 → color := ex_cmap.

Definition ex_sheet : dataset :=
  {| metadata := {[ "score" := Numbers [Fin 0; NaN; Fin 1] ]};
     data := ∅;
     pseudocount := Fin (1 # 10) |}.


Definition ex_points : gmap (string * string) point :=
  {[ ("gene", "g") := {| fraction := Fin 1; level := Fin 2;
                         pt_s := Fin 0; pt_c := Fin 0 |} ]}.

(** ** Further parts of the plotting layer

    The definitions from here to the properties embed more of
    [plot.py]: the rest of the shading of [Plot.dot_plot], the sample
    annotations and the colorbars of [Plot.clustermap],
    [Plot.plot_coverage], the axes properties of
    [Plot.scatter_statistics], [Plot.plot_distributions] and
    [Plot.plot_group_abundance_changes]; and the driver [run] of
    [test/test_counts_table.py].  Calls into seaborn, matplotlib, scipy
    and the shell are library code: they are parameters, or are taken to
    return, as each definition says. *)

(** ** dot_plot: a point once shaded *)

(** The row of [points] after lines 1203-1206 have written its size and
    shade. *)
Definition shaded (min_size vm vM : float64) (p : point) : point :=
  {| fraction := fraction p; level := level p;
     pt_s := size_fun min_size (fraction p);
     pt_c := normalize (level p) vm vM |}.

(** Two states of [points] with the same keys and, key by key, the same
    fraction and level. *)
Definition same_data (points points' : gmap (string * string) point) : Prop :=
  ∀ k, match points !! k, points' !! k with
       | Some p, Some p' => fraction p' = fraction p ∧ level p' = level p
       | None, None => True
       | _, _ => False
       end.

(** ** clustermap: annotations and their colorbars *)

(** Python's own float division raises on a zero divisor, unlike
    numpy's; [n_colors] and [n_cbars] are divisors below. *)
Inductive pyerror : Type :=
  | Exn (e : exn)
  | ZeroDivisionError.

Definition lift {A : Type} (m : result A) : pyerror + A :=
  match m with
  | inl e => inl (Exn e)
  | inr a => inr a
  end.

Definition nat_to_Q (n : nat) : Q := inject_Z (Z.of_nat n).

(** [x / n] for a Python float [x] and an int [n]. *)
Definition pydiv (x : Q) (n : nat) : pyerror + Q :=
  match n with
  | O => inl ZeroDivisionError
  | S _ => inr (x / nat_to_Q n)
  end.

(** A list comprehension whose body may raise. *)
Fixpoint collect {E A B : Type} (f : A → E + B) (l : list A) : E + list B :=
  match l with
  | [] => inr []
  | a :: l' =>
      match f a with
      | inl e => inl e
      | inr b =>
          match collect f l' with
          | inl e => inl e
          | inr bs => inr (b :: bs)
          end
      end
  end.

(** [np.nanmin] and [np.nanmax]: an empty array raises, an array of
    NaN only gives NaN (with a warning). *)
Definition np_nanmin (a : list float64) : result float64 :=
  match a with
  | [] => raise ValueError
  | _ =>
      match filter notnan a with
      | [] => ret NaN
      | l => np_min l
      end
  end.

Definition np_nanmax (a : list float64) : result float64 :=
  match a with
  | [] => raise ValueError
  | _ =>
      match filter notnan a with
      | [] => ret NaN
      | l => np_max l
      end
  end.

(** The value of one entry of [annotate_samples]: a palette or colormap
    name, a palette, or a colormap object. *)
Inductive annotation : Type :=
  | Name (s : string)
  | Colors (l : list color)
  | Cmap (f : float64 → color).

(** The dict [cbi] of one annotation; the qualitative one holds
    ['ticklabels'] only in the branch that writes this key. *)
Inductive cbar : Type :=
  | Qualitative (name : string) (palette : list color)
      (ticklabels : option (list string)) (n_colors : nat)
  | Sequential (name : string) (cmap : float64 → color)
      (vmin vmax : float64).

(** The box [(left, bottom, width, height)] given to [fig.add_axes]. *)
Definition box : Type := Q * Q * Q * Q.

(** One [ColorbarBase] with its ticks labelled and its label set. *)
Inductive colorbar : Type :=
  | SequentialBar (cax : box) (cmap : float64 → color)
      (vmin vmax : float64) (label : string)
  | QualitativeBar (cax : box) (palette : list color)
      (bounds ticks : list Q) (ticklabels : list string) (label : string).

Definition cax_of (cb : colorbar) : box :=
  match cb with
  | SequentialBar cax _ _ _ _ => cax
  | QualitativeBar cax _ _ _ _ _ => cax
  end.

Section Clustermap.
Variable get_cmap : string → float64 → color.
Variable color_palette : string → nat → list color.

(** Lines 750-757 and 772-779: the colours of a numeric annotation. *)
Definition annotate_sequential (cmap : result (float64 → color))
    (name : string) (values : list float64)
  : result (list color * cbar) :=
  let* vmax := np_nanmax values in
  let* vmin := np_nanmin values in
  let cval := (λ v, normalize v vmin vmax) <$> values in
  let* f := cmap in
  ret (f <$> cval, Sequential name f vmin vmax).

(** Lines 739-779: one turn of the loop over [annotate_samples.items()].
    [palette] is the local variable of that name as the earlier turns
    left it; the result holds its value after this turn. *)
Definition annotate (palette : option (list color)) (key : string)
    (val : annotation) (color_data : column)
  : result (list color * cbar * option (list color)) :=
  match val, color_data with
  | Name s, Labels values =>
      let cd_unique := np_unique values in
      let n_colors := length cd_unique in
      let palette := color_palette s n_colors in
      let* c := mapM (λ x, let* i := index x cd_unique in getitem palette i)
                  values in
      ret (c, Qualitative key palette (Some cd_unique) n_colors, Some palette)
  | Name s, Numbers values =>
      let* '(c, cbi) := annotate_sequential (ret (get_cmap s)) key values in
      ret (c, cbi, palette)
  | Colors l, Labels values =>
      let* '(c, palette) := annotate_qualitative palette l values in
      let n_colors := length (np_unique values) in
      ret (c, Qualitative key (take n_colors palette) None n_colors,
           Some palette)
  | Cmap f, Labels values =>
      let n_colors := length (np_unique values) in
      let* tested := match palette with
                     | Some p => ret p
                     | None => raise UnboundLocalError
                     end in
      if decide (length tested < n_colors)%nat then raise ValueError
      else raise TypeError
  | Colors l, Numbers values =>
      let* '(c, cbi) := annotate_sequential (raise TypeError) key values in
      ret (c, cbi, palette)
  | Cmap f, Numbers values =>
      let* '(c, cbi) := annotate_sequential (ret f) key values in
      ret (c, cbi, palette)
  end.

(** Lines 728-737: the column an annotation key stands for. *)
Definition annotation_data (ds : dataset) (key : string) : result column :=
  match metadata ds !! key with
  | Some col => ret col
  | None =>
      match data ds !! key with
      | Some v => ret (Numbers v)
      | None => raise KeyError
      end
  end.

(** Lines 725-782: the loop; the colours and the [cbi] of every entry,
    in the order of the dict. *)
Fixpoint annotate_loop (ds : dataset) (palette : option (list color))
    (items : list (string * annotation))
  : result (list (list color) * list cbar) :=
  match items with
  | [] => ret ([], [])
  | (key, val) :: items' =>
      let* color_data := annotation_data ds key in
      let* '(c, cbi, palette) := annotate palette key val color_data in
      let* '(cs, cbis) := annotate_loop ds palette items' in
      ret (c :: cs, cbi :: cbis)
  end.
End Clustermap.

(** Lines 952 and 1011: [[1.0 * i / n_colors for i in range(n_colors + 1)]]. *)
Definition colorbar_bounds (n_colors : nat) : pyerror + list Q :=
  collect (λ i, pydiv (1 * nat_to_Q i) n_colors) (seq 0 (n_colors + 1)).

(** Lines 953 and 1012:
    [[(2.0 * i + 1) / (n_colors * 2) for i in range(n_colors)]]. *)
Definition colorbar_ticks (n_colors : nat) : pyerror + list Q :=
  collect (λ i, pydiv (2 * nat_to_Q i + 1) (n_colors * 2)) (seq 0 n_colors).

(** Lines 941-968: one colorbar in its axes. *)
Definition draw_colorbar (cax : box) (cbi : cbar) : pyerror + colorbar :=
  match cbi with
  | Sequential name cmap vmin vmax =>
      inr (SequentialBar cax cmap vmin vmax name)
  | Qualitative name palette ticklabels n_colors =>
      match colorbar_bounds n_colors with
      | inl e => inl e
      | inr bounds =>
          match colorbar_ticks n_colors with
          | inl e => inl e
          | inr ticks =>
              match ticklabels with
              | None => inl (Exn KeyError)
              | Some labels =>
                  inr (QualitativeBar cax palette bounds ticks labels name)
              end
          end
      end
  end.

(** Lines 936 and 938: the axes of one colorbar; [pos] is [xcb] or
    [ycb], [size] is [wcb] or [hcb]. *)
Definition box_at (horizontal : bool) (size pos : Q) : box :=
  if horizontal then (pos, 955 # 1000, size, 25 # 1000)
  else (1 # 100, pos, 2 # 100, size).

(** Lines 934-973: the loop over the colorbars. *)
Fixpoint draw_colorbars_from (horizontal : bool) (size pos : Q)
    (cbars : list cbar) : pyerror + list colorbar :=
  match cbars with
  | [] => inr []
  | cbi :: cbars' =>
      let cax := box_at horizontal size pos in
      match draw_colorbar cax cbi with
      | inl e => inl e
      | inr cb =>
          let pos := if horizontal then pos + (size + (5 # 100))
                     else pos - (size + (5 # 100)) in
          match draw_colorbars_from horizontal size pos cbars' with
          | inl e => inl e
          | inr cbs => inr (cb :: cbs)
          end
      end
  end.

(** Lines 926-978, and 981-1037 for the features. *)
Definition draw_colorbars (horizontal : bool) (cbars : list cbar)
  : pyerror + list colorbar :=
  let n_cbars := length cbars in
  match pydiv (4 # 10) n_cbars with
  | inl e => inl e
  | inr q =>
      let size := Qmin (3 # 10) q in
      let pos :=
        if horizontal
        then (98 # 100) - size * nat_to_Q n_cbars
             - (5 # 100) * (nat_to_Q n_cbars - 1)
        else (98 # 100) - size in
      draw_colorbars_from horizontal size pos cbars
  end.

(** Lines 724-789, 858-882 and 923-978 of [clustermap] with
    [annotate_features=False]: the colours of the sample annotations
    ([None] without annotations) and their colorbars.  An empty dict is
    falsy.  The orientation is tested after the annotations are
    computed; [sns.clustermap] is taken to return. *)
Definition clustermap_samples (get_cmap : string → float64 → color)
    (color_palette : string → nat → list color) (ds : dataset)
    (annotate_samples : option (list (string * annotation)))
    (orientation : string) (colorbars : bool)
  : pyerror + (option (list (list color)) * list colorbar) :=
  match (match annotate_samples with
         | Some (item :: items) =>
             match lift (annotate_loop get_cmap color_palette ds None
                           (item :: items)) with
             | inl e => inl e
             | inr (cs, cbis) => inr (Some (cs, cbis))
             end
         | _ => inr None
         end) with
  | inl e => inl e
  | inr annotated =>
      if negb (String.eqb orientation "horizontal"
               || String.eqb orientation "vertical")
      then inl (Exn ValueError)
      else
        match annotated with
        | Some (cs, cbis) =>
            if colorbars then
              match draw_colorbars (String.eqb orientation "horizontal")
                      cbis with
              | inl e => inl e
              | inr cbs => inr (Some cs, cbs)
              end
            else inr (Some cs, [])
        | None => inr (None, [])
        end
  end.

(** ** Axis labels and limits *)

(** [str.capitalize] and [str.replace] on ASCII text. *)
Definition upper (c : Ascii.ascii) : Ascii.ascii :=
  let n := Ascii.nat_of_ascii c in
  if (97 <=? n)%nat && (n <=? 122)%nat then Ascii.ascii_of_nat (n - 32) else c.

Definition lower (c : Ascii.ascii) : Ascii.ascii :=
  let n := Ascii.nat_of_ascii c in
  if (65 <=? n)%nat && (n <=? 90)%nat then Ascii.ascii_of_nat (n + 32) else c.

Fixpoint map_string (f : Ascii.ascii → Ascii.ascii) (s : string) : string :=
  match s with
  | EmptyString => EmptyString
  | String c s' => String (f c) (map_string f s')
  end.

Definition capitalize (s : string) : string :=
  match s with
  | EmptyString => EmptyString
  | String c s' => String (upper c) (map_string lower s')
  end.

Definition replace_char (old new : Ascii.ascii) (s : string) : string :=
  map_string (λ c, if Ascii.eqb c old then new else c) s.

Definition underscore : Ascii.ascii := Ascii.ascii_of_nat 95.
Definition space : Ascii.ascii := Ascii.ascii_of_nat 32.

(** One entry of [ax_props]. *)
Inductive axprop : Type :=
  | Label (s : string)
  | Limits (lo hi : float64)
  | Scale (s : string).

(** Lines 130-133, 361-364 and 371-374: the label of the axis of the
    counts.  [normalized] is [counts._normalized]: [None] for [False],
    else the name of the normalization. *)
Definition counts_label (key : string) (normalized : option string)
    (ax_props : gmap string axprop) : gmap string axprop :=
  match normalized with
  | None => <[key := Label "Number of reads"]> ax_props
  | Some s =>
      if String.eqb s "" then <[key := Label "Number of reads"]> ax_props
      else if negb (String.eqb s "custom")
      then <[key := Label (replace_char underscore space (capitalize s))]>
             ax_props
      else ax_props
  end.

(** ** plot_coverage *)

(** [a.sum()] *)
Definition np_sum (a : list float64) : float64 := foldl fadd (Fin 0) a.

(** The order of [np.sort]: ascending, NaN last. *)
Definition np_sort_le (x y : float64) : Prop :=
  isnan y = true ∨ fleb x y = true.

Global Instance np_sort_le_dec x y : Decision (np_sort_le x y).
Proof. unfold np_sort_le. apply _. Defined.




(** ** scatter_statistics *)



(** ** plot_distributions *)

(** A number: neither NaN nor an infinity. *)
Definition finite (v : float64) : Prop := ∃ q, v = Fin q.




(** ** plot_group_abundance_changes *)

(** A table with labelled rows and columns, as the pandas operations
    below use it: [data.loc[g]] is the row of [g], and the division by
    [data.sum(axis=0)] pairs every entry with the sum of its own
    column. *)
Record frame : Type := {
  frame_index : list string;
  frame_columns : list string;
  frame_cell : string → string → float64
}.

Definition frame_map (f : float64 → float64) (d : frame) : frame :=
  {| frame_index := frame_index d; frame_columns := frame_columns d;
     frame_cell g a := f (frame_cell d g a) |}.

(** [data.sum(axis=0)] at column [a]. *)
Definition frame_sum (d : frame) (a : string) : float64 :=
  np_sum ((λ g, frame_cell d g a) <$> frame_index d).

(** [factor * data / data.sum(axis=0)] *)
Definition frame_normalize (factor : float64) (d : frame) : frame :=
  {| frame_index := frame_index d; frame_columns := frame_columns d;
     frame_cell g a := fdiv (fmul factor (frame_cell d g a)) (frame_sum d a) |}.

(** [data.loc[g]] *)
Definition frame_row (d : frame) (g : string) : list float64 :=
  (λ a, frame_cell d g a) <$> frame_columns d.

(** Lines 1303-1308: how many rows of the sample sheet carry each pair
    of labels; groups and columns in sorted order, pairs never seen
    filled with 0.  [samples] lists the two columns row by row. *)
Definition group_count (samples : list (string * string)) (g a : string)
  : nat :=
  length (filter (λ s, s = (g, a)) samples).

Definition count_frame (samples : list (string * string)) : frame :=
  {| frame_index := np_unique samples.*1;
     frame_columns := np_unique samples.*2;
     frame_cell g a := nat_to_float (group_count samples g a) |}.

(** Truth value of a Python float. *)
Definition truthy (x : float64) : bool :=
  match x with
  | Fin q => negb (is_zero q)
  | _ => true
  end.

(** The argument [cmap]: [None], a dict or a list. *)
Inductive group_colors : Type :=
  | NoColors
  | ColorDict (m : gmap string color)
  | ColorList (l : list color).

(** What one turn of the loop draws: [ax.scatter] and [ax.plot]. *)
Record abundance_call : Type := {
  ab_label : string;
  ab_x : list nat;
  ab_y : list float64;
  ab_scatter_kw : gmap string pval;
  ab_outx : list float64;
  ab_outy : list float64;
  ab_plot_kw : gmap string pval
}.

Record abundance_plot : Type := {
  ab_calls : list abundance_call;
  ab_xticks : list nat;
  ab_xticklabels : list string;
  ab_xlabel : string;
  ab_ylabel : string
}.

Definition Qsum (l : list Q) : Q := foldr Qplus 0 l.

Section GroupAbundance.
Variable ln : float64 → float64.
Variable pchip_interpolate
  : list nat → list float64 → list float64 → result (list float64).

(** Lines 1303-1320: the table that is plotted.  [log] is [None] for
    [False]. *)
Definition abundance_data (samples : list (string * string))
    (kind : string) (ymin : float64) (log : option float64)
  : result frame :=
  let data := count_frame samples in
  let* data :=
    if String.eqb kind "fraction" then ret (frame_normalize (Fin 1) data)
    else if String.eqb kind "percent"
    then ret (frame_normalize (Fin 100) data)
    else if negb (String.eqb kind "number") then raise ValueError
    else ret data in
  let data := frame_map (λ v, fmax2 v ymin) data in
  ret (match log with
       | Some base =>
           if truthy base then frame_map (λ v, fdiv (ln v) (ln base)) data
           else data
       | None => data
       end).

(** Lines 1336-1362: one turn of the loop.  The name [interpolate] is
    bound to the scipy module by line 1301, so the test of line 1353
    holds whatever the caller passed; a keyword of [scatter_kwargs]
    named like an argument already given makes the call fail. *)
Definition abundance_group (cmap : group_colors)
    (scatter_kwargs interpolate_kwargs : option (gmap string pval))
    (x : list nat) (ig : nat) (go : string) (y : list float64)
  : result abundance_call :=
  let kwargs : gmap string pval := ∅ in
  let* kwargs :=
    match cmap with
    | ColorDict m =>
        match m !! go with
        | Some c => ret (<["color" := PColor c]> kwargs)
        | None => raise KeyError
        end
    | ColorList l =>
        let* c := getitem l ig in ret (<["color" := PColor c]> kwargs)
    | NoColors => ret kwargs
    end in
  let* sc_kwargs :=
    match scatter_kwargs with
    | Some other => ret (dict_update kwargs other)
    | None => raise TypeError
    end in
  if decide (is_Some (sc_kwargs !! "label") ∨ is_Some (sc_kwargs !! "x")
             ∨ is_Some (sc_kwargs !! "y"))
  then raise TypeError
  else
    let* last := match last x with
                 | Some n => ret n
                 | None => raise IndexError
                 end in
    let outx := (λ q, Fin (nat_to_Q last * q)) <$> linspace01 100 in
    let* outy := pchip_interpolate x y outx in
    let* in_kwargs :=
      match interpolate_kwargs with
      | Some other => ret (dict_update kwargs other)
      | None => raise TypeError
      end in
    ret {| ab_label := go; ab_x := x; ab_y := y; ab_scatter_kw := sc_kwargs;
           ab_outx := outx; ab_outy := outy; ab_plot_kw := in_kwargs |}.

Fixpoint abundance_loop (cmap : group_colors)
    (scatter_kwargs interpolate_kwargs : option (gmap string pval))
    (data : frame) (x : list nat) (ig : nat) (gorder : list string)
  : result (list abundance_call) :=
  match gorder with
  | [] => ret []
  | go :: gorder' =>
      let* call := abundance_group cmap scatter_kwargs interpolate_kwargs
                     x ig go (frame_row data go) in
      let* calls := abundance_loop cmap scatter_kwargs interpolate_kwargs
                      data x (S ig) gorder' in
      ret (call :: calls)
  end.

(** Lines 1301-1367, with [group_order] and [along_order] left at
    [None], for a sample sheet with at least one row.  [scatter] and
    [interpolate] are the arguments of these names. *)
Definition plot_group_abundance_changes (samples : list (string * string))
    (along kind : string) (scatter interpolate : bool) (cmap : group_colors)
    (scatter_kwargs interpolate_kwargs : option (gmap string pval))
    (log : option float64) (ymin : float64) : result abundance_plot :=
  let* data := abundance_data samples kind ymin log in
  let x := seq 0 (length (frame_columns data)) in
  let* calls := abundance_loop cmap scatter_kwargs interpolate_kwargs data x
                  0 (frame_index data) in
  ret {| ab_calls := calls; ab_xticks := x;
         ab_xticklabels := frame_columns data; ab_xlabel := along;
         ab_ylabel := capitalize kind +:+ " of samples" |}.
End GroupAbundance.

(** ** test_counts_table.py: the driver of the test scripts *)

(** What [run] may raise: a built-in exception, or the
    [CalledProcessError] of [subprocess.check_call] with the exit
    status of the script. *)
Inductive test_error : Type :=
  | Raised (e : exn)
  | CalledProcessError (returncode : Z).

Section TestDriver.
(** Exit status of the shell command [script] run under [env]. *)
Variable check_call : string → gmap string string → Z.

(** [run(script, where)], with [where_] for the argument [where]:
    [node] is [platform.node()], [environ] is
    [os.environ], [singlet_path] the directory two levels above the
    file.  The result lists the commands run with their environment,
    then what the call returns or raises. *)
Definition run (node : string) (environ : gmap string string)
    (singlet_path script : string) (where_ : option string)
  : list (string * gmap string string) * (test_error + option Z) :=
  if decide (where_ = Some "local" ∧ node ≠ "X260") then ([], inr None)
  else if decide (where_ = Some "remote" ∧ node = "X260") then ([], inr None)
  else
    let env :=
      <["SINGLET_CONFIG_FILENAME" := "example_data/config_example.yml"]>
        environ in
    match (if decide (node = "X260") then
             match env !! "PYTHONPATH" with
             | Some p =>
                 inr (<["PYTHONPATH" := singlet_path +:+ ":" +:+ p]> env)
             | None => inl (Raised KeyError)
             end
           else inr env) with
    | inl e => ([], inl e)
    | inr env =>
        let status := check_call script env in
        ([(script, env)],
         if Z.eqb status 0 then inr (Some 0%Z)
         else inl (CalledProcessError status))
    end.

(** The script part: one [run(script)] after the other; an exception
    ends the program. *)
Fixpoint run_all (node : string) (environ : gmap string string)
    (singlet_path : string) (scripts : list string)
  : list (string * gmap string string) * (test_error + unit) :=
  match scripts with
  | [] => ([], inr ())
  | script :: scripts' =>
      let '(ran, r) := run node environ singlet_path script None in
      match r with
      | inl e => (ran, inl e)
      | inr _ =>
          let '(ran', r') := run_all node environ singlet_path scripts' in
          (ran ++ ran', r')
      end
  end.

Definition test_scripts : list string :=
  [ "test/counts_table/initialize.py";
    "test/counts_table/statistics.py";
    "test/counts_table/bin.py";
    "test/counts_table/initialize_sparse.py";
    "test/counts_table/statistics_sparse.py";
    "test/counts_table/initialize_xr.py";
    "test/counts_table/statistics_xr.py" ].

Definition main (node : string) (environ : gmap string string)
    (singlet_path : string)
  : list (string * gmap string string) * (test_error + unit) :=
  run_all node environ singlet_path test_scripts.
End TestDriver.

(** ** Inputs for further worked examples *)

(** A sheet with one column of labels, and stand-ins for the library
    functions of [clustermap], [plot_group_abundance_changes] and the
    test driver: a palette of greys of the length asked for, a
    placeholder for [np.log], an interpolation that returns a flat line,
    and a shell in which only the script ["false"] fails. *)
Definition ex_labelled : dataset :=
  {| metadata := {[ "kind" := Labels ["b"; "a"; "b"] ]};
     data := ∅;
     pseudocount := Fin (1 # 10) |}.

Definition ex_color_palette (name : string) (n_colors : nat) : list color :=
  (λ q, Rgba q q q 1) <$> linspace01 n_colors.

Definition ex_ln (x : float64) : float64 := x.

Definition ex_pchip (x : list nat) (y outx : list float64)
  : result (list float64) :=
  ret (replicate (length outx) (default NaN (head y))).

Definition ex_check_call (script : string) (env : gmap string string) : Z :=
  if String.eqb script "false" then 1%Z else 0%Z.

(** * Properties *)

(** ** Order on float64 *)

Lemma is_zero_true q : is_zero q = true ↔ q == 0.
Proof. unfold is_zero. apply Qeq_bool_iff. Qed.

Lemma is_zero_false q : is_zero q = false ↔ ¬ q == 0.
Proof.
  rewrite <- is_zero_true. destruct (is_zero q); split; done.
Qed.

Lemma fleb_refl x : isnan x = false → fleb x x = true.
Proof. destruct x; simpl; try done. intros _. apply Qle_bool_iff. lra. Qed.

Lemma fleb_trans x y z : fleb x y = true → fleb y z = true → fleb x z = true.
Proof.
  destruct x, y, z; simpl; try done.
  rewrite !Qle_bool_iff. lra.
Qed.

Lemma fleb_total x y :
  isnan x = false → isnan y = false → fleb x y = true ∨ fleb y x = true.
Proof.
  destruct x as [a| | |], y as [b| | |]; simpl; try done; auto.
  intros _ _. rewrite !Qle_bool_iff. lra.
Qed.

Lemma fleb_notnan x y : fleb x y = true → isnan x = false ∧ isnan y = false.
Proof. by destruct x, y. Qed.

Lemma fleb_antisym x y : fleb x y = true → fleb y x = true → feq x y.
Proof.
  destruct x, y; simpl; try done. rewrite !Qle_bool_iff. lra.
Qed.

(** ** Minimum and maximum of an array without NaN *)

Lemma foldl_fmin2_spec (l : list float64) (x : float64) :
  isnan x = false → Forall notnan l →
  let m := foldl fmin2 x l in
  isnan m = false ∧ m ∈ x :: l ∧ ∀ y, y ∈ x :: l → fleb m y = true.
Proof.
  revert x. induction l as [|a l IH]; intros x Hx Hl; simpl.
  - split_and!; [done|left|]. intros y ->%list_elem_of_singleton.
    by apply fleb_refl.
  - apply Forall_cons in Hl as [Ha Hl]. unfold notnan in Ha.
    assert (Hm : isnan (fmin2 x a) = false ∧ fmin2 x a ∈ [x; a]
                 ∧ fleb (fmin2 x a) x = true ∧ fleb (fmin2 x a) a = true).
    { unfold fmin2. rewrite Hx, Ha. simpl.
      destruct (fleb x a) eqn:Hxa.
      - split_and!; [done|left|by apply fleb_refl|done].
      - split_and!; [done|right; left| |by apply fleb_refl].
        by destruct (fleb_total x a Hx Ha) as [?|?]; [congruence|]. }
    destruct Hm as (Hn & Hin & Hlx & Hla).
    destruct (IH _ Hn Hl) as (H1 & H2 & H3). split_and!; [done| |].
    + apply elem_of_cons in H2 as [->|H2].
      * apply elem_of_cons in Hin as [->|Hin]; [left|].
        apply list_elem_of_singleton in Hin as ->. right; left.
      * right. by right.
    + intros y [->|[->|Hy]%elem_of_cons]%elem_of_cons.
      * eapply fleb_trans; [|exact Hlx]. apply H3. left.
      * eapply fleb_trans; [|exact Hla]. apply H3. left.
      * apply H3. by right.
Qed.

Lemma foldl_fmax2_spec (l : list float64) (x : float64) :
  isnan x = false → Forall notnan l →
  let m := foldl fmax2 x l in
  isnan m = false ∧ m ∈ x :: l ∧ ∀ y, y ∈ x :: l → fleb y m = true.
Proof.
  revert x. induction l as [|a l IH]; intros x Hx Hl; simpl.
  - split_and!; [done|left|]. intros y ->%list_elem_of_singleton.
    by apply fleb_refl.
  - apply Forall_cons in Hl as [Ha Hl]. unfold notnan in Ha.
    assert (Hm : isnan (fmax2 x a) = false ∧ fmax2 x a ∈ [x; a]
                 ∧ fleb x (fmax2 x a) = true ∧ fleb a (fmax2 x a) = true).
    { unfold fmax2. rewrite Hx, Ha. simpl.
      destruct (fleb x a) eqn:Hxa.
      - split_and!; [done|right; left|done|by apply fleb_refl].
      - split_and!; [done|left|by apply fleb_refl|].
        by destruct (fleb_total x a Hx Ha) as [?|?]; [congruence|]. }
    destruct Hm as (Hn & Hin & Hlx & Hla).
    destruct (IH _ Hn Hl) as (H1 & H2 & H3). split_and!; [done| |].
    + apply elem_of_cons in H2 as [->|H2].
      * apply elem_of_cons in Hin as [->|Hin]; [left|].
        apply list_elem_of_singleton in Hin as ->. right; left.
      * right. by right.
    + intros y [->|[->|Hy]%elem_of_cons]%elem_of_cons.
      * eapply fleb_trans; [exact Hlx|]. apply H3. left.
      * eapply fleb_trans; [exact Hla|]. apply H3. left.
      * apply H3. by right.
Qed.

Lemma np_min_spec (a : list float64) :
  a ≠ [] → Forall notnan a →
  ∃ m, np_min a = inr m ∧ isnan m = false ∧ m ∈ a
       ∧ ∀ y, y ∈ a → fleb m y = true.
Proof.
  destruct a as [|x l]; [done|]. intros _ [Hx Hl]%Forall_cons.
  exists (foldl fmin2 x l). split; [done|]. by apply foldl_fmin2_spec.
Qed.

Lemma np_max_spec (a : list float64) :
  a ≠ [] → Forall notnan a →
  ∃ m, np_max a = inr m ∧ isnan m = false ∧ m ∈ a
       ∧ ∀ y, y ∈ a → fleb y m = true.
Proof.
  destruct a as [|x l]; [done|]. intros _ [Hx Hl]%Forall_cons.
  exists (foldl fmax2 x l). split; [done|]. by apply foldl_fmax2_spec.
Qed.

(** ** Masks *)

Lemma select_all {A} (a : list A) :
  select a (replicate (length a) true) = a.
Proof.
  unfold select. induction a as [|x a IH]; [done|].
  cbn [length replicate zip zip_with]. rewrite filter_cons_True by done.
  cbn [fmap list_fmap fst]. f_equal. exact IH.
Qed.

Lemma select_fmap {A} (P : A → bool) (a : list A) :
  select a (P <$> a) = filter (λ x, Is_true (P x)) a.
Proof.
  unfold select. induction a as [|x a IH]; [done|].
  cbn [fmap list_fmap zip zip_with]. destruct (P x) eqn:HP.
  - rewrite !filter_cons_True by (cbn; by rewrite ?HP).
    cbn [fmap list_fmap fst]. f_equal. exact IH.
  - rewrite !filter_cons_False by (cbn; rewrite ?HP; auto). exact IH.
Qed.

Lemma unmask_fmap (values : list float64) :
  (if existsb isnan values then (λ v, negb (isnan v)) <$> values
   else replicate (length values) true)
  = (λ v, negb (isnan v)) <$> values.
Proof.
  destruct (existsb isnan values) eqn:Hex; [done|].
  induction values as [|v values IH]; [done|].
  simpl in *. apply orb_false_iff in Hex as [-> Hex]. simpl. f_equal. auto.
Qed.

Lemma select_unmask (values : list float64) :
  select values ((λ v, negb (isnan v)) <$> values) = filter notnan values.
Proof.
  rewrite select_fmap.
  apply list_filter_iff. intros x. unfold notnan. by destruct (isnan x).
Qed.


(** ** Plot properties *)

Section PlotPropertiesFacts.
Context {V : Type}.
Implicit Types (kwargs defaults : gmap string V) (al : list (string * string)).

(** Filling in defaults is a left-biased union. *)
Lemma fill_defaults_union kwargs defaults :
  map_fold fill_default kwargs defaults = kwargs ∪ defaults.
Proof.
  induction defaults as [|k v d Hk Hfold IH] using map_first_key_ind.
  - rewrite map_fold_empty. by rewrite (right_id_L ∅ (∪)).
  - rewrite map_fold_insert_first_key by done.
    rewrite IH. unfold fill_default.
    apply map_eq. intros j.
    destruct ((kwargs ∪ d) !! k) as [w|] eqn:Hw.
    + apply lookup_union_Some_raw in Hw as [Hw|[_ Hw]]; [|congruence].
      rewrite !lookup_union. destruct (decide (j = k)) as [->|Hne].
      * rewrite Hw, lookup_insert_eq, Hk. done.
      * by rewrite lookup_insert_ne.
    + apply lookup_union_None in Hw as [Hw _].
      destruct (decide (j = k)) as [->|Hne].
      * rewrite lookup_insert_eq, lookup_union, Hw, lookup_insert_eq. done.
      * rewrite lookup_insert_ne by done. rewrite !lookup_union.
        by rewrite lookup_insert_ne.
Qed.

Lemma rename_alias_lookup kwargs long short k :
  long ≠ short →
  rename_alias kwargs (long, short) !! k =
    if decide (k = short) then None
    else if decide (k = long) then
           match kwargs !! short with
           | Some v => Some v
           | None => kwargs !! long
           end
         else kwargs !! k.
Proof.
  intros Hls. unfold rename_alias. simpl.
  destruct (kwargs !! short) as [v|] eqn:Hs.
  - repeat case_decide; subst; simplify_map_eq; done.
  - repeat case_decide; subst; simplify_map_eq; done.
Qed.

Lemma sanitize_with_lookup al kwargs k :
  NoDup (al.*1 ++ al.*2) →
  sanitize_with al kwargs !! k = renamed_lookup al kwargs k.
Proof.
  revert kwargs. induction al as [|[long short] al IH]; intros kwargs Hnd.
  - done.
  - simpl in Hnd. apply NoDup_cons in Hnd as [Hlong Hnd].
    assert (Hnd' : NoDup (al.*1 ++ al.*2)).
    { apply NoDup_app in Hnd as (H1 & H2 & H3).
      apply NoDup_cons in H3 as [_ H3]. apply NoDup_app; split_and!; try done.
      intros x Hx Hx'. apply (H2 x Hx). by right. }
    assert (Hls : long ≠ short).
    { intros ->. apply Hlong. apply elem_of_app. right. left. }
    assert (Hl1 : long ∉ al.*1).
    { intros H. apply Hlong, elem_of_app. by left. }
    assert (Hl2 : long ∉ al.*2).
    { intros H. apply Hlong, elem_of_app. right. by right. }
    assert (Hs1 : short ∉ al.*1).
    { intros H. apply NoDup_app in Hnd as (_ & H2 & _). apply (H2 _ H). left. }
    assert (Hs2 : short ∉ al.*2).
    { intros H. apply NoDup_app in Hnd as (_ & _ & H3).
      apply NoDup_cons in H3 as [H3 _]. done. }
    assert (Hnone : ∀ x, x ∉ al.*1 →
              list_find (λ ka : string * string, ka.1 = x) al = None).
    { intros x Hx. apply list_find_None, Forall_forall. intros [a b] Hab Heq.
      simpl in Heq. subst. apply Hx, list_elem_of_fmap. by exists (x, b). }
    unfold sanitize_with in *. cbn [foldl]. rewrite (IH _ Hnd').
    unfold renamed_lookup. rewrite !fmap_cons. cbn [list_find fst snd].
    destruct (decide (k = short)) as [->|Hks].
    { destruct (decide (short ∈ short :: al.*2)) as [_|Hn];
        [|exfalso; apply Hn; left].
      destruct (decide (short ∈ al.*2)); [done|].
      rewrite (Hnone _ Hs1), rename_alias_lookup by done.
      by rewrite decide_True. }
    destruct (decide (k ∈ al.*2)) as [Hk2|Hk2].
    { destruct (decide (k ∈ short :: al.*2)) as [_|Hn]; [done|].
      exfalso; apply Hn; by right. }
    destruct (decide (k ∈ short :: al.*2)) as [[?|?]%elem_of_cons|_]; [done..|].
    destruct (decide (long = k)) as [<-|Hkl].
    { rewrite (Hnone _ Hl1), rename_alias_lookup by done.
      rewrite decide_False by done. by rewrite decide_True. }
    destruct (list_find (λ ka : string * string, ka.1 = k) al)
      as [[i [a b]]|] eqn:Hfind; cbn.
    + apply list_find_Some in Hfind as (Hi & Ha & _). simpl in Ha. subst a.
      assert (Hb : b ∈ al.*2).
      { apply list_elem_of_fmap. exists (k, b). split; [done|].
        by eapply list_elem_of_lookup_2. }
      rewrite !rename_alias_lookup by done.
      rewrite (decide_False (P := b = short)) by (intros ->; done).
      rewrite (decide_False (P := b = long)) by (intros ->; done).
      rewrite (decide_False (P := k = short)) by done.
      rewrite (decide_False (P := k = long)) by done. done.
    + rewrite !rename_alias_lookup by done.
      rewrite (decide_False (P := k = short)) by done.
      rewrite (decide_False (P := k = long)) by done. done.
Qed.

Lemma aliases_NoDup : NoDup (aliases.*1 ++ aliases.*2).
Proof. apply (bool_decide_unpack _). vm_compute. exact I. Qed.

Lemma find_alias al long short :
  NoDup al.*1 → (long, short) ∈ al →
  ∃ i, list_find (λ ka : string * string, ka.1 = long) al
       = Some (i, (long, short)).
Proof.
  intros Hnd Hin. induction al as [|[a b] al IH]; [by apply elem_of_nil in Hin|].
  rewrite fmap_cons in Hnd. apply NoDup_cons in Hnd as [Ha Hnd].
  cbn [list_find fst]. apply elem_of_cons in Hin as [Heq|Hin].
  - injection Heq as -> ->. rewrite decide_True by done. by exists 0%nat.
  - rewrite decide_False.
    + destruct (IH Hnd Hin) as [i ->]. by exists (S i).
    + intros ->. apply Ha, list_elem_of_fmap. by exists (long, short).
Qed.

Lemma sanitize_short al kwargs long short :
  NoDup (al.*1 ++ al.*2) → (long, short) ∈ al →
  sanitize_with al kwargs !! short = None.
Proof.
  intros Hnd Hin. rewrite sanitize_with_lookup by done.
  unfold renamed_lookup. rewrite decide_True; [done|].
  apply list_elem_of_fmap. by exists (long, short).
Qed.

Lemma sanitize_long al kwargs long short :
  NoDup (al.*1 ++ al.*2) → (long, short) ∈ al →
  sanitize_with al kwargs !! long =
    match kwargs !! short with
    | Some v => Some v
    | None => kwargs !! long
    end.
Proof.
  intros Hnd Hin. rewrite sanitize_with_lookup by done.
  unfold renamed_lookup. apply NoDup_app in Hnd as (Hnd1 & Hdisj & _).
  rewrite decide_False.
  - by destruct (find_alias al long short Hnd1 Hin) as [i ->].
  - apply Hdisj, list_elem_of_fmap. by exists (long, short).
Qed.

Lemma sanitize_other al kwargs k :
  NoDup (al.*1 ++ al.*2) → k ∉ al.*1 → k ∉ al.*2 →
  sanitize_with al kwargs !! k = kwargs !! k.
Proof.
  intros Hnd H1 H2. rewrite sanitize_with_lookup by done.
  unfold renamed_lookup. rewrite decide_False by done.
  assert (list_find (λ ka : string * string, ka.1 = k) al = None) as ->; [|done].
  apply list_find_None, Forall_forall. intros [a b] Hab Heq.
  simpl in Heq. subst. apply H1, list_elem_of_fmap. by exists (k, b).
Qed.

(** C9.  When defaults are merged into the caller's keyword arguments,
    nothing the caller supplied is overwritten by a default.  A value
    given under a short alias is found under the long name afterwards
    and the alias is gone; a value given under a long name whose alias
    is absent, or under a name outside the alias table, is kept; every
    entry of the renamed caller dictionary survives; and a default is
    written exactly at the keys the renamed caller dictionary lacks,
    with the value the renamed defaults hold there. *)
Theorem update_properties_keeps_caller kwargs defaults :
  let kwargs' := (_update_properties kwargs defaults).1 in
  (∀ long short v, (long, short) ∈ aliases →
     kwargs !! short = Some v →
     kwargs' !! long = Some v ∧ kwargs' !! short = None) ∧
  (∀ long short v, (long, short) ∈ aliases →
     kwargs !! short = None → kwargs !! long = Some v →
     kwargs' !! long = Some v) ∧
  (∀ k v, k ∉ aliases.*1 → k ∉ aliases.*2 →
     kwargs !! k = Some v → kwargs' !! k = Some v) ∧
  (∀ k v, _sanitize_plot_properties kwargs !! k = Some v →
     kwargs' !! k = Some v) ∧
  (∀ k, _sanitize_plot_properties kwargs !! k = None →
     kwargs' !! k = _sanitize_plot_properties defaults !! k).
Proof.
  unfold _update_properties. cbn [fst]. rewrite fill_defaults_union.
  assert (Hkeep : ∀ k v, _sanitize_plot_properties kwargs !! k = Some v →
     (_sanitize_plot_properties kwargs ∪ _sanitize_plot_properties defaults)
       !! k = Some v).
  { intros k v Hk. by apply lookup_union_Some_l. }
  pose proof aliases_NoDup as Hnd. unfold _sanitize_plot_properties in *.
  split_and!.
  - intros long short v Hin Hs. split.
    + apply Hkeep. rewrite (sanitize_long _ _ _ _ Hnd Hin). by rewrite Hs.
    + rewrite lookup_union, !(sanitize_short _ _ _ _ Hnd Hin). done.
  - intros long short v Hin Hs Hl. apply Hkeep.
    rewrite (sanitize_long _ _ _ _ Hnd Hin). by rewrite Hs.
  - intros k v H1 H2 Hk. apply Hkeep. by rewrite sanitize_other.
  - done.
  - intros k Hk. by rewrite lookup_union, Hk, (left_id_L None (∪)).
Qed.
End PlotPropertiesFacts.


(** ** Categorical colouring *)

(** ** Results of list traversals *)

Lemma mapM_inr {A B} (f : A → result B) (l : list A) (bs : list B) :
  mapM f l = inr bs ↔ Forall2 (λ a b, f a = inr b) l bs.
Proof.
  revert bs. induction l as [|a l IH]; intros bs; simpl.
  - split.
    + intros [= <-]. constructor.
    + intros ->%Forall2_nil_inv_l. done.
  - destruct (f a) as [e|b] eqn:Hfa; simpl.
    + split; [done|]. intros (b & bs' & Hb & _ & _)%Forall2_cons_inv_l. simpl in Hb. by rewrite Hfa in Hb.
    + destruct (mapM f l) as [e|bs'] eqn:Hl; simpl.
      * split; [done|]. intros (b' & bs' & Hb & Hbs & ->)%Forall2_cons_inv_l.
        by apply IH in Hbs.
      * split.
        -- intros [= <-]. constructor; [done|]. by apply IH.
        -- intros (b' & bs'' & Hb & Hbs & ->)%Forall2_cons_inv_l.
           apply IH in Hbs. simpl in Hb. rewrite Hfa in Hb.
           by injection Hb as <-; injection Hbs as <-.
Qed.

Lemma mapM_total {A B} (f : A → result B) (l : list A) :
  (∀ a, a ∈ l → ∃ b, f a = inr b) → ∃ bs, mapM f l = inr bs.
Proof.
  induction l as [|a l IH]; intros Hall; simpl; [by eexists|].
  destruct (Hall a) as [b ->]; [left|]. simpl.
  destruct IH as [bs ->]; [|by eexists].
  intros a' Ha'. apply Hall. by right.
Qed.

Lemma mapM_fails {A B} (f : A → result B) (l : list A) a e :
  a ∈ l → f a = inl e → ∃ e', mapM f l = inl e'.
Proof.
  induction l as [|a' l IH]; intros Hin Hfa; [by apply elem_of_nil in Hin|].
  simpl. apply elem_of_cons in Hin as [<-|Hin].
  - rewrite Hfa. by eexists.
  - destruct (f a'); simpl; [by eexists|].
    destruct (IH Hin Hfa) as [e' ->]. by eexists.
Qed.

Lemma take_indices_out_of_range {A} (a : list A) (idx : list nat) i :
  i ∈ idx → a !! i = None → take_indices a idx = inl IndexError.
Proof.
  unfold take_indices.
  induction idx as [|j idx IH]; intros Hin Hi; [by apply elem_of_nil in Hin|].
  simpl. unfold getitem at 1. destruct (a !! j) eqn:Hj; [|done]. simpl.
  apply elem_of_cons in Hin as [->|Hin]; [congruence|].
  by rewrite IH.
Qed.

(** ** np_unique and index *)

Lemma np_unique_NoDup values : NoDup (np_unique values).
Proof.
  unfold np_unique. rewrite merge_sort_Permutation. apply NoDup_remove_dups.
Qed.

Lemma elem_of_np_unique values x : x ∈ np_unique values ↔ x ∈ values.
Proof.
  unfold np_unique. rewrite merge_sort_Permutation. apply elem_of_remove_dups.
Qed.

Lemma index_lookup x l i : index x l = inr i → l !! i = Some x.
Proof.
  unfold index. destruct (list_find _ l) as [[j y]|] eqn:Hfind; [|done].
  intros [= <-]. apply list_find_Some in Hfind as (Hj & -> & _). done.
Qed.

Lemma index_elem_of x l : x ∈ l → ∃ i, index x l = inr i.
Proof.
  intros Hin. unfold index.
  destruct (list_find_elem_of (λ y, y = x) l x Hin eq_refl) as [[i y] ->].
  by eexists.
Qed.

Lemma index_NoDup x l i : NoDup l → l !! i = Some x → index x l = inr i.
Proof.
  intros Hnd Hi.
  destruct (index_elem_of x l) as [j Hj]; [by eapply list_elem_of_lookup_2|].
  rewrite Hj. f_equal. apply index_lookup in Hj.
  by eapply NoDup_lookup.
Qed.

(** ** Dictionaries built from lists *)

Lemma foldl_insert_lookup {A} (l : list (string * A)) (m0 : gmap string A) k :
  NoDup l.*1 →
  foldl (λ m kv, <[kv.1 := kv.2]> m) m0 l !! k =
    match (list_to_map l : gmap string A) !! k with
    | Some v => Some v
    | None => m0 !! k
    end.
Proof.
  revert m0. induction l as [|[a b] l IH]; intros m0 Hnd; [done|].
  rewrite fmap_cons in Hnd. apply NoDup_cons in Hnd as [Ha Hnd].
  cbn [foldl list_to_map foldr fst snd uncurry]. rewrite IH by done.
  destruct (decide (k = a)) as [->|Hne].
  - rewrite (not_elem_of_list_to_map_1 _ _ Ha).
    by rewrite !lookup_insert_eq.
  - by rewrite !lookup_insert_ne.
Qed.

Lemma fst_zip_take {A B} (l : list A) (k : list B) :
  (zip l k).*1 = take (length k) l.
Proof.
  revert k. induction l as [|x l IH]; intros [|y k]; simpl; try done.
  f_equal. apply IH.
Qed.

Lemma dict_zip_list_to_map {A} (keys : list string) (vals : list A) :
  NoDup keys → dict_zip keys vals = list_to_map (zip keys vals).
Proof.
  intros Hnd. apply map_eq. intros k. unfold dict_zip.
  rewrite foldl_insert_lookup.
  - rewrite lookup_empty. by destruct (_ !! k).
  - rewrite fst_zip_take. apply (sublist_NoDup _ keys); [done|apply sublist_take].
Qed.

Lemma dict_update_union {A} (d other : gmap string A) :
  dict_update d other = other ∪ d.
Proof.
  unfold dict_update.
  induction other as [|k v o Hk Hfold IH] using map_first_key_ind.
  - rewrite map_fold_empty. by rewrite (left_id_L ∅ (∪)).
  - rewrite map_fold_insert_first_key by done. rewrite IH.
    by rewrite insert_union_l.
Qed.

Lemma linspace01_length n : length (linspace01 n) = n.
Proof.
  destruct n as [|[|n]]; [done..|].
  unfold linspace01. by rewrite length_fmap, length_seq.
Qed.

Section CategoricalFacts.
Variable get_cmap : string → float64 → color.

Local Abbreviation color_categorical := (color_categorical get_cmap).
Local Abbreviation category_colors := (category_colors get_cmap).

Lemma category_colors_length cmap default_color values :
  covers cmap values →
  (length (np_unique values)
   ≤ length (category_colors cmap default_color (np_unique values)))%nat.
Proof.
  destruct cmap; simpl; intros H;
    rewrite ?length_fmap, ?linspace01_length; done.
Qed.

Lemma color_categorical_spec values cmap default_color ax :
  covers cmap values →
  ∃ c legend,
    color_categorical values cmap default_color ax
    = inr (c, {| _singlet_cmap := Some legend; scattered := scattered ax |}) ∧
    length c = length values ∧
    (∀ i x, values !! i = Some x →
       ∃ col, c !! i = Some col ∧ legend !! x = Some col) ∧
    dom legend
    = list_to_set values ∪ dom (default ∅ (_singlet_cmap ax)) ∧
    (∀ k, k ∉ values → legend !! k = default ∅ (_singlet_cmap ax) !! k).
Proof.
  intros Hcov.
  pose proof (category_colors_length cmap default_color values Hcov) as Hlen.
  pose proof (np_unique_NoDup values) as Hnd.
  unfold color_categorical.
  set (cd_unique := np_unique values) in *.
  set (c_unique := category_colors cmap default_color cd_unique) in *.
  destruct (mapM_total (λ x, index x cd_unique) values) as [idx Hidx].
  { intros x Hx. apply index_elem_of. by apply elem_of_np_unique. }
  rewrite Hidx. cbn [bind]. apply mapM_inr in Hidx.
  destruct (mapM_total (getitem c_unique) idx) as [c Hc].
  { intros i Hi. apply list_elem_of_lookup in Hi as [j Hj].
    destruct (Forall2_lookup_r _ _ _ _ _ Hidx Hj) as (x & Hx & Hix).
    simpl in Hix. apply index_lookup in Hix.
    apply lookup_lt_Some in Hix. unfold getitem.
    destruct (lookup_lt_is_Some_2 c_unique i) as [col ->]; [lia|].
    by eexists. }
  unfold take_indices. rewrite Hc. cbn [bind]. apply mapM_inr in Hc.
  rewrite dict_update_union, (dict_zip_list_to_map _ _ Hnd).
  do 2 eexists. split; [reflexivity|].
  assert (Hfst : (zip cd_unique c_unique).*1 = cd_unique).
  { by apply fst_zip. }
  split_and!.
  - apply Forall2_length in Hidx, Hc. congruence.
  - intros i x Hi.
    destruct (Forall2_lookup_l _ _ _ _ _ Hidx Hi) as (j & Hj & Hxj).
    destruct (Forall2_lookup_l _ _ _ _ _ Hc Hj) as (col & Hcol & Hjc).
    simpl in Hxj, Hjc. apply index_lookup in Hxj.
    unfold getitem in Hjc. destruct (c_unique !! j) as [col'|] eqn:Hcu; [|done].
    injection Hjc as ->. exists col. split; [done|].
    apply lookup_union_Some_l. apply elem_of_list_to_map; [by rewrite Hfst|].
    apply list_elem_of_lookup. exists j.
    rewrite lookup_zip_with, Hxj. simpl. by rewrite Hcu.
  - rewrite dom_union_L, dom_list_to_map_L, Hfst. f_equal.
    apply set_eq. intros x. rewrite !elem_of_list_to_set.
    apply elem_of_np_unique.
  - intros k Hk. rewrite lookup_union_r; [done|].
    apply not_elem_of_list_to_map_1. rewrite Hfst.
    intros Hk'. apply Hk. by apply elem_of_np_unique.
Qed.


(** C4.  A list palette with fewer entries than there are distinct
    labels makes categorical colour resolution fail instead of
    assigning colours: in [scatter_reduced] the positional lookup
    raises IndexError before anything is recorded on the axes, and the
    explicit-palette branch of [clustermap] raises whatever [palette]
    held before. *)
Theorem short_palette_fails values l default_color ax palette :
  (length l < length (np_unique values))%nat →
  color_categorical values (Listed l) default_color ax = inl IndexError ∧
  ∃ e, annotate_qualitative palette l values = inl e.
Proof.
  intros Hshort.
  pose proof (np_unique_NoDup values) as Hnd.
  destruct (lookup_lt_is_Some_2 (np_unique values) (length l) Hshort)
    as [x Hx].
  assert (Hin : x ∈ values).
  { apply elem_of_np_unique. by eapply list_elem_of_lookup_2. }
  pose proof (index_NoDup _ _ _ Hnd Hx) as Hidx.
  assert (Hnone : l !! length l = None) by by apply lookup_ge_None.
  split.
  - unfold color_categorical.
    destruct (mapM_total (λ x, index x (np_unique values)) values)
      as [idx Hall].
    { intros y Hy. apply index_elem_of. by apply elem_of_np_unique. }
    rewrite Hall. cbn [bind]. apply mapM_inr in Hall.
    apply list_elem_of_lookup in Hin as [j Hj].
    destruct (Forall2_lookup_l _ _ _ _ _ Hall Hj) as (i & Hi & Hxi).
    simpl in Hxi. rewrite Hidx in Hxi. injection Hxi as <-.
    rewrite (take_indices_out_of_range _ _ (length l)); [done| |done].
    by eapply list_elem_of_lookup_2.
  - unfold annotate_qualitative. destruct palette as [p|]; [|by eexists].
    unfold ret at 1. cbn [bind]. case_decide; [by eexists|].
    destruct (mapM_fails
                (λ x, let* i := index x (np_unique values) in getitem l i)
                values x IndexError Hin) as [e He].
    { rewrite Hidx. cbn [bind]. unfold getitem. by rewrite Hnone. }
    rewrite He. by eexists.
Qed.
End CategoricalFacts.


(** ** Continuous colouring *)

Section ContinuousFacts.
Variable log10 : float64 → float64.
Variable named_rgb : string → Q * Q * Q.
Variable get_cmap : string → float64 → color.

Local Abbreviation color_continuous := (color_continuous log10 named_rgb get_cmap).
Local Abbreviation as_callable := (as_callable get_cmap).
Local Abbreviation to_rgba := (to_rgba named_rgb).






End ContinuousFacts.

Lemma normalize_degenerate v lo hi :
  fleb lo v = true → fleb v hi = true → feq lo hi → normalize v lo hi = NaN.
Proof.
  destruct v as [q| | |], lo as [a| | |], hi as [b| | |]; simpl; try done.
  rewrite !Qle_bool_iff. intros H1 H2 H3.
  unfold normalize, fsub, fadd, fneg, fdiv.
  rewrite (proj2 (is_zero_true (b + - a))) by lra.
  by rewrite (proj2 (is_zero_true (q + - a))) by lra.
Qed.

Lemma normalize_nan lo hi : normalize NaN lo hi = NaN.
Proof. reflexivity. Qed.


Section DegenerateDomain.
Variable log10 : float64 → float64.
Variable named_rgb : string → Q * Q * Q.
Variable get_cmap : string → float64 → color.

Local Abbreviation color_continuous := (color_continuous log10 named_rgb get_cmap).
Local Abbreviation as_callable := (as_callable get_cmap).
Local Abbreviation to_rgba := (to_rgba named_rgb).

End DegenerateDomain.


(** ** Log scale *)

(** Rounded powers bound the exact power from below and from above. *)












(** Brackets are stable under equality of rationals. *)



(** [log10 1.1], by the exact powers. *)


(** [log10 100.1 = 2 + log10 1.001], by rounded powers of 1.001. *)




Section LogDomain.
Variable log10 : float64 → float64.
Variable named_rgb : string → Q * Q * Q.
Variable get_cmap : string → float64 → color.

Local Abbreviation color_continuous := (color_continuous log10 named_rgb get_cmap).
Local Abbreviation as_callable := (as_callable get_cmap).

End LogDomain.

(** ** Rescaling *)


(** ** Dot sizes *)

(** C8.  The size of a dot is [min_size + (fraction * 11) ** 2] for every
    fraction, inside [0, 1] or not; a fraction of 0.5 with [min_size] 2
    gives 32.25, and a fraction of 1.5 gives 274.25, unclamped. *)
Theorem size_fun_formula :
  (∀ min_size fraction : Q,
     feq (size_fun (Fin min_size) (Fin fraction))
         (Fin (min_size + (fraction * 11) ^ 2))) ∧
  feq (size_fun (Fin 2) (Fin (1 # 2))) (Fin (3225 # 100)) ∧
  feq (size_fun (Fin 2) (Fin (3 # 2))) (Fin (27425 # 100)).
Proof.
  split_and!; [|reflexivity..].
  intros min_size fraction. unfold size_fun, fsquare. simpl. ring.
Qed.

(** ** Scatter without colouring *)

Lemma unique_values_replicate n x :
  same_value x x = true → unique_values (replicate (S n) x) = [x].
Proof.
  intros Hx. induction n as [|n IH]; [done|].
  change (replicate (S (S n)) x) with (x :: replicate (S n) x).
  cbn [unique_values]. rewrite IH.
  rewrite filter_cons_False; [done|]. rewrite Hx. simpl. tauto.
Qed.

Lemma np_unique_float_ones n :
  np_unique_float (replicate n (Fin 1))
  = match n with O => [] | S _ => [Fin 1] end.
Proof.
  unfold np_unique_float.
  assert (Hex : existsb isnan (replicate n (Fin 1)) = false).
  { induction n; [done|]. simpl. done. }
  assert (Hf : filter notnan (replicate n (Fin 1)) = replicate n (Fin 1)).
  { induction n as [|n IH]; [done|]. simpl.
    rewrite filter_cons_True by done. by rewrite IH. }
  rewrite Hex, Hf, app_nil_r. destruct n; [done|].
  by rewrite unique_values_replicate.
Qed.

Section Uncolored.
Variable log10 : float64 → float64.
Variable named_rgb : string → Q * Q * Q.
Variable get_cmap : string → float64 → color.

Local Abbreviation scatter_reduced := (scatter_reduced log10 named_rgb get_cmap).

Lemma updated_kwargs_lookup (kwargs : gmap string pval) :
  let kw0 := (_update_properties kwargs {[ "s"%string := PNum (Fin 90) ]}).1 in
  kw0 !! "c"%string = None ∧
  kw0 !! "s"%string = Some (default (PNum (Fin 90)) (kwargs !! "s"%string)).
Proof.
  unfold _update_properties. cbn [fst]. rewrite fill_defaults_union.
  unfold _sanitize_plot_properties.
  assert (Hc : ("color", "c")%string ∈ aliases).
  { unfold aliases. set_solver. }
  pose proof (@aliases_NoDup) as Hnd.
  split.
  - rewrite lookup_union, !(sanitize_short _ _ _ _ Hnd Hc). done.
  - assert (H1 : "s"%string ∉ aliases.*1).
    { apply (bool_decide_unpack _). vm_compute. exact I. }
    assert (H2 : "s"%string ∉ aliases.*2).
    { apply (bool_decide_unpack _). vm_compute. exact I. }
    rewrite lookup_union, !sanitize_other by done.
    rewrite lookup_singleton_eq. by destruct (kwargs !! "s"%string).
Qed.

Lemma scatter_tier_ones n_rows (kw0 : gmap string pval) s :
  kw0 !! "c"%string = None →
  kw0 !! "s"%string = Some s →
  (∃ e, scatter_tier n_rows (replicate n_rows (Fin 1)) kw0 (Fin 1) = inl e
        ∧ isscalar s = false) ∨
  (∃ kw', scatter_tier n_rows (replicate n_rows (Fin 1)) kw0 (Fin 1)
          = inr {| rows := seq 0 n_rows; kw := kw' |}
          ∧ ∀ k, k ≠ "s"%string → kw' !! k = kw0 !! k).
Proof.
  intros Hc Hs. unfold scatter_tier.
  rewrite fmap_replicate.
  change (feqb (Fin 1) (Fin 1)) with true.
  assert (Hsel : mask_index (seq 0 n_rows) (replicate n_rows true)
                 = inr (seq 0 n_rows)).
  { unfold mask_index.
    rewrite decide_True by (by rewrite length_seq, length_replicate).
    pose proof (select_all (seq 0 n_rows)) as Hall.
    rewrite length_seq in Hall. by rewrite Hall. }
  rewrite Hsel. cbn [bind ret]. rewrite Hc. cbn [bind ret]. rewrite Hs.
  cbn [bind ret].
  destruct (isscalar s) eqn:Hsc.
  - right. eexists. split; [reflexivity|done].
  - destruct (pval_mask s (replicate n_rows true)) as [e|s'] eqn:Hm;
      cbn [bind ret].
    + left. exists e. done.
    + right. eexists. split; [reflexivity|].
      intros k Hk. by rewrite lookup_insert_ne.
Qed.

(** C10.  With [color_by=None] the call never reads the dataset, the
    palette, [color_log] or [high_on_top]: when it returns, the
    [_singlet_cmap] attribute of the axes is as it was (absent if it
    was absent), the new scatter calls together draw every row once,
    each of them is given [color = default_color] and no per-row array
    [c]; and it does return whenever the size [s] is absent or a
    scalar. *)
Theorem uncolored_scatter ds n_rows color_log cmap default_color ax
    high_on_top kwargs :
  (∀ ax',
     scatter_reduced ds n_rows None color_log cmap default_color ax
       high_on_top kwargs = inr ax' →
     _singlet_cmap ax' = _singlet_cmap (default new_axes ax) ∧
     ∃ calls,
       scattered ax' = scattered (default new_axes ax) ++ calls ∧
       Forall (λ call,
           kw call !! "color"%string = Some (PColor default_color) ∧
           kw call !! "c"%string = None) calls ∧
       concat (rows <$> calls) = seq 0 n_rows) ∧
  (∀ ds' color_log' cmap' high_on_top',
     scatter_reduced ds' n_rows None color_log' cmap' default_color ax
       high_on_top' kwargs
     = scatter_reduced ds n_rows None color_log cmap default_color ax
         high_on_top kwargs) ∧
  (default true (isscalar <$> kwargs !! "s"%string) = true →
   ∃ ax',
     scatter_reduced ds n_rows None color_log cmap default_color ax
       high_on_top kwargs = inr ax').
Proof.
  destruct (updated_kwargs_lookup kwargs) as [Hc Hs]. cbv zeta in Hc, Hs.
  set (kw0 := <["color"%string := PColor default_color]>
                (_update_properties kwargs
                   {[ "s"%string := PNum (Fin 90) ]}).1).
  assert (Hc0 : kw0 !! "c"%string = None).
  { unfold kw0. by rewrite lookup_insert_ne. }
  assert (Hs0 : kw0 !! "s"%string
                = Some (default (PNum (Fin 90)) (kwargs !! "s"%string))).
  { unfold kw0. by rewrite lookup_insert_ne. }
  assert (Hcol : kw0 !! "color"%string = Some (PColor default_color)).
  { unfold kw0. by rewrite lookup_insert_eq. }
  assert (Hunf :
    scatter_reduced ds n_rows None color_log cmap default_color ax
      high_on_top kwargs
    = let* calls := mapM (scatter_tier n_rows (replicate n_rows (Fin 1)) kw0)
                      (np_unique_float (replicate n_rows (Fin 1))) in
      ret {| _singlet_cmap := _singlet_cmap (default new_axes ax);
             scattered := scattered (default new_axes ax) ++ calls |})
    by reflexivity.
  split_and!.
  - intros ax'. rewrite Hunf, np_unique_float_ones.
    destruct n_rows as [|n].
    + cbn. intros [= <-]. split; [done|]. exists []. by split_and!.
    + cbn [mapM].
      destruct (scatter_tier_ones (S n) kw0 _ Hc0 Hs0)
        as [(e & -> & _)|(kw' & -> & Hkw)]; [done|].
      cbn. intros [= <-]. split; [done|].
      eexists. split; [reflexivity|]. split.
      * constructor; [|constructor]. cbn [kw].
        by rewrite !Hkw.
      * cbn. by rewrite app_nil_r.
  - reflexivity.
  - intros Hscalar. rewrite Hunf, np_unique_float_ones.
    destruct n_rows as [|n]; [by eexists|].
    cbn [mapM].
    destruct (scatter_tier_ones (S n) kw0 _ Hc0 Hs0)
      as [(e & _ & Hns)|(kw' & -> & Hkw)].
    + destruct (kwargs !! "s"%string); simpl in Hscalar, Hns; congruence.
    + by eexists.
Qed.
End Uncolored.


(** ** Tiers *)

Lemma fltb_le_trans b v w :
  fltb b v = true → fleb v w = true → fltb b w = true.
Proof.
  unfold fltb. rewrite !andb_true_iff, !negb_true_iff.
  intros [Hbv Hvb] Hvw. split; [by eapply fleb_trans|].
  destruct (fleb w b) eqn:Hwb; [|done].
  by rewrite (fleb_trans _ _ _ Hvw Hwb) in Hvb.
Qed.

Lemma searchsorted_left_le bins v :
  (searchsorted_left bins v ≤ length bins)%nat.
Proof.
  induction bins as [|b bins IH]; simpl; [lia|].
  destruct (isnan v || fltb b v); simpl; lia.
Qed.

Lemma searchsorted_left_mono bins v w :
  fleb v w = true →
  (searchsorted_left bins v ≤ searchsorted_left bins w)%nat.
Proof.
  intros Hvw. destruct (fleb_notnan _ _ Hvw) as [Hv Hw].
  induction bins as [|b bins IH]; simpl; [lia|].
  rewrite Hv, Hw. simpl.
  destruct (fltb b v) eqn:Hbv; [|lia].
  rewrite (fltb_le_trans _ _ _ Hbv Hvw). lia.
Qed.

(** A tier is NaN or one of the numbers [0 .. length bins - 2]. *)
Lemma bin_code_range bins v a :
  bin_code bins v = Fin a →
  ∃ k : nat, a = inject_Z (Z.of_nat k) ∧ (k + 2 ≤ length bins)%nat.
Proof.
  unfold bin_code. destruct bins as [|b0 bins'].
  { assert (feqb v NaN = false) as Hf by (by destruct v).
    cbn [nth]. rewrite Hf. cbn. destruct (isnan v); simpl; discriminate. }
  assert (Hlen : (1 ≤ length (b0 :: bins'))%nat) by (simpl; lia).
  remember (b0 :: bins') as bins eqn:Hbins. clear Hbins.
  set (ids := if feqb v (nth 0 bins NaN) then 1%nat
              else searchsorted_left bins v).
  assert (Hle : (ids ≤ length bins)%nat).
  { unfold ids. destruct (feqb _ _); [lia|].
    apply searchsorted_left_le. }
  destruct (isnan v); [done|]. simpl.
  destruct (Nat.eqb_spec ids (length bins)); [done|].
  destruct (Nat.eqb_spec ids 0); [done|]. simpl.
  unfold nat_to_float. intros [= <-]. exists (ids - 1)%nat.
  split; [done|]. lia.
Qed.

Lemma searchsorted_left_head b bins v :
  isnan v = false →
  searchsorted_left (b :: bins) v
  = if fltb b v then S (searchsorted_left bins v) else O.
Proof. intros Hv. cbn [searchsorted_left]. by rewrite Hv. Qed.

(** Tiers follow the order of the values. *)
Lemma bin_code_mono bins v w a b :
  fleb v w = true →
  bin_code bins v = Fin a → bin_code bins w = Fin b → a <= b.
Proof.
  intros Hvw. destruct (fleb_notnan _ _ Hvw) as [Hv Hw].
  unfold bin_code. rewrite Hv, Hw. cbn [orb].
  set (b0 := nth 0 bins NaN).
  set (iv := if feqb v b0 then 1%nat else searchsorted_left bins v).
  set (iw := if feqb w b0 then 1%nat else searchsorted_left bins w).
  destruct (Nat.eqb_spec iv (length bins)); [done|].
  destruct (Nat.eqb_spec iv 0) as [|Hv0]; [done|].
  destruct (Nat.eqb_spec iw (length bins)); [done|].
  destruct (Nat.eqb_spec iw 0) as [|Hw0]; [done|]. cbn [orb].
  unfold nat_to_float. intros [= <-] [= <-].
  assert (Hiv : (iv ≤ iw)%nat); [|rewrite <- Zle_Qle; lia].
  pose proof (searchsorted_left_mono bins v w Hvw) as Hmono.
  unfold iv, iw in *. clear iv iw.
  destruct (feqb v b0) eqn:Hvb, (feqb w b0) eqn:Hwb; try lia.
  (* w is the lowest edge and v is not: v would lie below every edge *)
  exfalso. destruct bins as [|b1 bins']; [done|].
  unfold b0 in *. cbn [nth] in *.
  apply andb_true_iff in Hwb as [Hwb1 Hwb2].
  rewrite (searchsorted_left_head _ _ _ Hv) in Hv0.
  destruct (fltb b1 v) eqn:Hlt; [|done].
  unfold fltb in Hlt. apply andb_true_iff in Hlt as [H1 H2].
  rewrite negb_true_iff in H2.
  by rewrite (fleb_trans _ _ _ Hvw Hwb1) in H2.
Qed.

Lemma unique_values_length l : (length (unique_values l) ≤ length l)%nat.
Proof.
  induction l as [|x l IH]; simpl; [lia|].
  pose proof (length_filter
    (λ y, Is_true (negb (same_value x y))) (unique_values l)). lia.
Qed.

Lemma qcut_bins_length x q : (length (qcut_bins x q) ≤ length q)%nat.
Proof.
  unfold qcut_bins. case_decide.
  - etrans; [apply unique_values_length|]. by rewrite length_fmap.
  - by rewrite length_fmap.
Qed.

(** With the five quantiles of [scatter_reduced], one tier per row, each
    NaN or one of 0, 1, 2, 3, in the order of the values. *)
Lemma qcut_tiers x :
  length (qcut x (linspace01 5)) = length x ∧
  (∀ i a, qcut x (linspace01 5) !! i = Some (Fin a) →
     ∃ k : nat, a = inject_Z (Z.of_nat k) ∧ (k < 4)%nat) ∧
  (∀ i j v w a b,
     x !! i = Some v → x !! j = Some w → fleb v w = true →
     qcut x (linspace01 5) !! i = Some (Fin a) →
     qcut x (linspace01 5) !! j = Some (Fin b) → a <= b) ∧
  (∀ i, x !! i = Some NaN → qcut x (linspace01 5) !! i = Some NaN).
Proof.
  unfold qcut. split_and!.
  - by rewrite length_fmap.
  - intros i a Hi. rewrite list_lookup_fmap in Hi.
    destruct (x !! i) as [v|]; [|done]. simpl in Hi. injection Hi as Hi.
    destruct (bin_code_range _ _ _ Hi) as (k & -> & Hk).
    exists k. split; [done|].
    pose proof (qcut_bins_length x (linspace01 5)) as Hlen.
    simpl in Hlen. lia.
  - intros i j v w a b Hi Hj Hvw Ha Hb.
    rewrite list_lookup_fmap in Ha, Hb. rewrite Hi in Ha. rewrite Hj in Hb.
    simpl in Ha, Hb. injection Ha as Ha. injection Hb as Hb.
    by eapply bin_code_mono.
  - intros i Hi. by rewrite list_lookup_fmap, Hi.
Qed.

(** ** Worked examples *)




(** One turn of the inner loop of [dot_plot] on a group that exists. *)
Lemma shade_groups_one min_size vm vM gexist count gr points p :
  gr ∈ gexist →
  points !! (count, gr) = Some p →
  shade_groups min_size vm vM gexist count [gr] points
  = inr (<[(count, gr) := {| fraction := fraction p; level := level p;
                             pt_s := size_fun min_size (fraction p);
                             pt_c := normalize (level p) vm vM |}]> points).
Proof.
  intros Hin Hp. cbn [shade_groups]. rewrite decide_True by done.
  by rewrite Hp.
Qed.



(** ** Instances *)


Lemma short_palette_fails_witness :
  (length [Named "red"; Named "blue"] < length (np_unique ["a"; "b"; "c"]))%nat ∧
  color_categorical ex_get_cmap ["a"; "b"; "c"]
    (Listed [Named "red"; Named "blue"]) (Named "darkgrey") new_axes
  = inl IndexError ∧
  ∃ e, annotate_qualitative None [Named "red"; Named "blue"] ["a"; "b"; "c"]
       = inl e.
Proof.
  assert (Hlt : (length [Named "red"; Named "blue"]
                 < length (np_unique ["a"; "b"; "c"]))%nat).
  { vm_compute. lia. }
  split; [exact Hlt|].
  exact (short_palette_fails ex_get_cmap ["a"; "b"; "c"]
           [Named "red"; Named "blue"] (Named "darkgrey") new_axes None Hlt).
Defined.





(** * Further properties *)

(** ** Plot properties, continued *)

Section PlotPropertiesMore.
Context {V : Type}.
Implicit Types (kwargs defaults : gmap string V) (al : list (string * string)).

Lemma sanitize_with_no_alias al kwargs :
  (∀ short, short ∈ al.*2 → kwargs !! short = None) →
  sanitize_with al kwargs = kwargs.
Proof.
  unfold sanitize_with. revert kwargs.
  induction al as [|[long short] al IH]; intros kwargs Hno; [done|].
  cbn [foldl]. unfold rename_alias at 2. cbn [fst snd].
  rewrite (Hno short) by (rewrite fmap_cons; left).
  apply IH. intros s Hs. apply Hno. rewrite fmap_cons. by right.
Qed.

Lemma sanitized_has_no_alias kwargs short :
  short ∈ aliases.*2 → _sanitize_plot_properties kwargs !! short = None.
Proof.
  intros Hs. apply list_elem_of_fmap in Hs as [[long s] [-> Hin]].
  exact (sanitize_short _ _ _ _ aliases_NoDup Hin).
Qed.

(** X1. _sanitize_plot_properties is idempotent; it leaves a dictionary
    without any short alias key unchanged; and after it no short alias
    key is left in the dictionary. *)
Theorem sanitize_idempotent kwargs :
  _sanitize_plot_properties (_sanitize_plot_properties kwargs)
  = _sanitize_plot_properties kwargs ∧
  ((∀ short, short ∈ aliases.*2 → kwargs !! short = None) →
   _sanitize_plot_properties kwargs = kwargs) ∧
  (∀ short, short ∈ aliases.*2 →
     _sanitize_plot_properties kwargs !! short = None).
Proof.
  split_and!.
  - apply sanitize_with_no_alias. intros s Hs.
    by apply sanitized_has_no_alias.
  - apply sanitize_with_no_alias.
  - intros s Hs. by apply sanitized_has_no_alias.
Qed.

(** X2. A second _update_properties on the two dictionaries a first
    call left changes nothing; the keys of the updated kwargs are those
    of the sanitized kwargs together with those of the sanitized
    defaults; and the defaults are left sanitized. *)
Theorem update_properties_twice kwargs defaults :
  let r := _update_properties kwargs defaults in
  _update_properties r.1 r.2 = r ∧
  dom r.1 = dom (_sanitize_plot_properties kwargs)
            ∪ dom (_sanitize_plot_properties defaults) ∧
  r.2 = _sanitize_plot_properties defaults.
Proof.
  cbv zeta. unfold _update_properties. cbn [fst snd].
  rewrite !fill_defaults_union.
  set (sk := _sanitize_plot_properties kwargs).
  set (sd := _sanitize_plot_properties defaults).
  assert (Hsd : _sanitize_plot_properties sd = sd).
  { apply sanitize_with_no_alias. intros s Hs.
    by apply sanitized_has_no_alias. }
  assert (Hsk : _sanitize_plot_properties (sk ∪ sd) = sk ∪ sd).
  { apply sanitize_with_no_alias. intros s Hs.
    apply lookup_union_None. split; by apply sanitized_has_no_alias. }
  split_and!; [|by rewrite dom_union_L|done].
  rewrite Hsd, Hsk. f_equal.
  apply map_eq. intros k. rewrite !lookup_union.
  by destruct (sk !! k), (sd !! k).
Qed.
End PlotPropertiesMore.

(** ** scatter_reduced, continued *)

Section ScatterMore.
Variable log10 : float64 → float64.
Variable named_rgb : string → Q * Q * Q.
Variable get_cmap : string → float64 → color.

Local Abbreviation scatter_reduced := (scatter_reduced log10 named_rgb get_cmap).
Local Abbreviation color_continuous := (color_continuous log10 named_rgb get_cmap).
Local Abbreviation color_categorical := (color_categorical get_cmap).
Local Abbreviation as_callable := (as_callable get_cmap).

(** X3. scatter_reduced with a color_by that names neither a metadata
    column nor a row of the counts raises ValueError; when the name is a
    metadata column, the result depends on no other column, on no count
    and not on the pseudocount. *)
Theorem color_key_lookup ds n_rows name color_log cmap default_color ax
    high_on_top kwargs :
  (metadata ds !! name = None → data ds !! name = None →
   scatter_reduced ds n_rows (Some name) color_log cmap default_color ax
     high_on_top kwargs = inl ValueError) ∧
  (∀ col, metadata ds !! name = Some col →
   scatter_reduced ds n_rows (Some name) color_log cmap default_color ax
     high_on_top kwargs
   = scatter_reduced
       {| metadata := {[ name := col ]}; data := ∅; pseudocount := NaN |}
       n_rows (Some name) color_log cmap default_color ax high_on_top
       kwargs).
Proof.
  split.
  - intros Hm Hd. unfold scatter_reduced, lookup_color_data.
    by rewrite Hm, Hd.
  - intros col Hm. unfold scatter_reduced, lookup_color_data.
    cbn [metadata data pseudocount]. rewrite Hm, lookup_singleton_eq.
    by destruct col.
Qed.

(** X4. For a column of labels, scatter_reduced gives the same result
    whatever color_log and high_on_top are. *)
Theorem categorical_ignores_numeric_options ds n_rows name values color_log
    color_log' cmap default_color ax high_on_top high_on_top' kwargs :
  metadata ds !! name = Some (Labels values) →
  scatter_reduced ds n_rows (Some name) color_log cmap default_color ax
    high_on_top kwargs
  = scatter_reduced ds n_rows (Some name) color_log' cmap default_color ax
      high_on_top' kwargs.
Proof.
  intros Hm. unfold scatter_reduced, lookup_color_data. by rewrite Hm.
Qed.


End ScatterMore.

Section PlainScatter.
Variable log10 : float64 → float64.
Variable named_rgb : string → Q * Q * Q.
Variable get_cmap : string → float64 → color.

Local Abbreviation scatter_reduced := (scatter_reduced log10 named_rgb get_cmap).
Local Abbreviation color_continuous := (color_continuous log10 named_rgb get_cmap).
Local Abbreviation color_categorical := (color_categorical get_cmap).

Lemma color_categorical_inv values cmap default_color ax c ax1 :
  color_categorical values cmap default_color ax = inr (c, ax1) →
  length c = length values ∧ scattered ax1 = scattered ax.
Proof.
  unfold color_categorical.
  destruct (mapM _ values) as [e|idx] eqn:Hidx; [done|]. cbn [bind].
  destruct (take_indices _ idx) as [e|c0] eqn:Hc; [done|]. cbn [bind ret].
  intros [= <- <-]. split; [|done].
  apply mapM_inr, Forall2_length in Hidx.
  unfold take_indices in Hc. apply mapM_inr, Forall2_length in Hc. congruence.
Qed.

Lemma color_continuous_inv values by_phenotype color_log cmap default_color
    pseudocount high_on_top tiers r :
  color_continuous values by_phenotype color_log cmap default_color
    pseudocount high_on_top tiers = inr r →
  length (colors r) = length values ∧
  (high_on_top = false → tiers_of r = tiers).
Proof.
  unfold color_continuous. rewrite unmask_fmap.
  destruct (np_min _) as [e|m]; [done|]. cbn [bind].
  destruct (np_max _) as [e|M]; [done|]. cbn [bind].
  destruct (default (negb by_phenotype) color_log);
    (destruct (as_callable get_cmap cmap) as [e|f]; [done|]);
    cbn [bind ret]; intros [= <-]; cbn [colors tiers_of];
    (split; [rewrite length_zip_with, !length_fmap; lia|by intros ->]).
Qed.

Lemma scatter_tier_ones_colored n_rows (kw0 : gmap string pval) s cs :
  kw0 !! "c"%string = Some (PColors cs) →
  kw0 !! "s"%string = Some s →
  (∃ e, scatter_tier n_rows (replicate n_rows (Fin 1)) kw0 (Fin 1) = inl e) ∨
  (∃ kw', scatter_tier n_rows (replicate n_rows (Fin 1)) kw0 (Fin 1)
          = inr {| rows := seq 0 n_rows; kw := kw' |}
          ∧ kw' !! "c"%string = Some (PColors cs)).
Proof.
  intros Hc Hs. unfold scatter_tier.
  rewrite fmap_replicate.
  change (feqb (Fin 1) (Fin 1)) with true.
  assert (Hsel : mask_index (seq 0 n_rows) (replicate n_rows true)
                 = inr (seq 0 n_rows)).
  { unfold mask_index.
    rewrite decide_True by (by rewrite length_seq, length_replicate).
    pose proof (select_all (seq 0 n_rows)) as Hall.
    rewrite length_seq in Hall. by rewrite Hall. }
  rewrite Hsel. cbn [bind ret]. rewrite Hc. cbn [is_str len bind ret].
  rewrite length_seq.
  assert (Hkw : ∃ kw1 : gmap string pval,
            (if decide (length cs = n_rows)
             then let* c' := pval_mask (PColors cs) (replicate n_rows true)
                  in ret (<["c"%string := c']> kw0)
             else ret kw0) = inr kw1 ∧
            kw1 !! "c"%string = Some (PColors cs) ∧
            kw1 !! "s"%string = Some s).
  { case_decide as Hlen.
    - cbn [pval_mask]. unfold mask_index.
      rewrite decide_True by (by rewrite length_replicate).
      cbn [bind ret]. rewrite <- Hlen, select_all.
      eexists. split; [reflexivity|].
      split; [by rewrite lookup_insert_eq|by rewrite lookup_insert_ne].
    - eexists. split; [reflexivity|]. done. }
  destruct Hkw as (kw1 & -> & Hc1 & Hs1). cbn [bind ret].
  rewrite Hs1. cbn [bind ret].
  destruct (isscalar s).
  - right. eexists. split; [reflexivity|done].
  - destruct (pval_mask s (replicate n_rows true)) as [e|s'];
      cbn [bind ret].
    + left. by eexists.
    + right. eexists. split; [reflexivity|]. by rewrite lookup_insert_ne.
Qed.

Lemma plain_scatter_calls n_rows (kwargs : gmap string pval) cs calls :
  mapM (scatter_tier n_rows (replicate n_rows (Fin 1))
          (<["c"%string := PColors cs]>
             (_update_properties kwargs
                {[ "s"%string := PNum (Fin 90) ]}).1))
    (np_unique_float (replicate n_rows (Fin 1))) = inr calls →
  (length calls ≤ 1)%nat ∧
  concat (rows <$> calls) = seq 0 n_rows ∧
  Forall (λ call, kw call !! "c"%string = Some (PColors cs)) calls.
Proof.
  rewrite np_unique_float_ones. destruct n_rows as [|n].
  { cbn [mapM ret]. intros [= <-].
    split_and!; [simpl; lia|done|constructor]. }
  cbn [mapM].
  destruct (updated_kwargs_lookup kwargs) as [_ Hs]. cbv zeta in Hs.
  destruct (scatter_tier_ones_colored (S n)
              (<["c"%string := PColors cs]>
                 (_update_properties kwargs
                    {[ "s"%string := PNum (Fin 90) ]}).1)
              (default (PNum (Fin 90)) (kwargs !! "s"%string)) cs
              (lookup_insert_eq _ _ _))
    as [(e & ->)|(kw' & -> & Hc)].
  - by rewrite lookup_insert_ne.
  - done.
  - cbn. intros [= <-]. split_and!; [simpl; lia|cbn; by rewrite app_nil_r|].
    by constructor.
Qed.

(** X6. When scatter_reduced with high_on_top off returns, the column
    was found, one colour was computed per entry of the column, at most
    one scatter call was added after those already on the axes, the
    calls draw every row exactly once and in order, and each call
    carries the computed colours under 'c'. *)
Theorem plain_scatter_draws_once ds n_rows name color_log cmap default_color
    ax kwargs ax' :
  scatter_reduced ds n_rows (Some name) color_log cmap default_color ax false
    kwargs = inr ax' →
  ∃ src cs calls,
    lookup_color_data ds name = inr src ∧
    length cs = match src with
                | inl values => length values
                | inr (values, _) => length values
                end ∧
    scattered ax' = scattered (default new_axes ax) ++ calls ∧
    (length calls ≤ 1)%nat ∧
    concat (rows <$> calls) = seq 0 n_rows ∧
    Forall (λ call, kw call !! "c"%string = Some (PColors cs)) calls.
Proof.
  unfold scatter_reduced.
  destruct (lookup_color_data ds name) as [e|[values|[values bp]]] eqn:Hsrc;
    [done|..]; cbn [bind].
  - destruct (color_categorical _ _ _ _) as [e|[c ax1]] eqn:Hc; [done|].
    cbn [bind ret].
    destruct (mapM _ _) as [e|calls] eqn:Hcalls; [done|]. cbn [bind ret].
    intros [= <-]. cbn [scattered].
    destruct (color_categorical_inv _ _ _ _ _ _ Hc) as [Hlen Hsc].
    destruct (plain_scatter_calls _ _ _ _ Hcalls) as (H1 & H2 & H3).
    exists (inl values), c, calls. rewrite Hsc. by split_and!.
  - destruct (color_continuous _ _ _ _ _ _ _ _) as [e|r] eqn:Hc; [done|].
    cbn [bind ret].
    destruct (color_continuous_inv _ _ _ _ _ _ _ _ _ Hc) as [Hlen Htiers].
    rewrite (Htiers eq_refl).
    destruct (mapM _ _) as [e|calls] eqn:Hcalls; [done|]. cbn [bind ret].
    intros [= <-]. cbn [scattered].
    destruct (plain_scatter_calls _ _ _ _ Hcalls) as (H1 & H2 & H3).
    exists (inr (values, bp)), (colors r), calls. by split_and!.
Qed.
End PlainScatter.

(** ** Categorical colouring, continued *)

Lemma linspace01_lookup n j :
  (j < n)%nat →
  linspace01 n !! j
  = Some (if decide (n = 1%nat) then 0
          else inject_Z (Z.of_nat j) / inject_Z (Z.of_nat (n - 1))).
Proof.
  intros Hj. destruct n as [|[|m]]; [lia| |].
  - assert (j = 0%nat) as -> by lia. done.
  - rewrite decide_False by lia. unfold linspace01.
    rewrite list_lookup_fmap, lookup_seq_lt by done. cbn [fmap option_fmap option_map].
    reflexivity.
Qed.

Lemma linspace01_ends n :
  (2 ≤ n)%nat →
  inject_Z (Z.of_nat 0) / inject_Z (Z.of_nat (n - 1)) == 0 ∧
  inject_Z (Z.of_nat (n - 1)) / inject_Z (Z.of_nat (n - 1)) == 1.
Proof.
  intros Hn.
  assert (Hnz : ¬ inject_Z (Z.of_nat (n - 1)) == 0).
  { change 0 with (inject_Z 0). rewrite inject_Z_injective. lia. }
  split; field; exact Hnz.
Qed.

Section CategoricalMore.
Variable get_cmap : string → float64 → color.

Local Abbreviation color_categorical := (color_categorical get_cmap).

Lemma color_categorical_rows values cmap default_color ax c ax1 :
  color_categorical values cmap default_color ax = inr (c, ax1) →
  ∀ i x, values !! i = Some x →
    ∃ j col, np_unique values !! j = Some x ∧
             category_colors get_cmap cmap default_color (np_unique values) !! j
             = Some col ∧
             c !! i = Some col.
Proof.
  unfold color_categorical.
  destruct (mapM _ values) as [e|idx] eqn:Hidx; [done|]. cbn [bind].
  destruct (take_indices _ idx) as [e|c0] eqn:Hc; [done|]. cbn [bind ret].
  intros [= <- <-] i x Hi.
  apply mapM_inr in Hidx. unfold take_indices in Hc. apply mapM_inr in Hc.
  destruct (Forall2_lookup_l _ _ _ _ _ Hidx Hi) as (j & Hj & Hxj).
  destruct (Forall2_lookup_l _ _ _ _ _ Hc Hj) as (col & Hcol & Hjc).
  simpl in Hxj, Hjc. apply index_lookup in Hxj. unfold getitem in Hjc.
  destruct (category_colors _ _ _ _ !! j) as [col'|] eqn:Hcu; [|done].
  injection Hjc as ->. by exists j, col.
Qed.


(** X8. With a colormap object as cmap, colouring a column of labels
    never fails: the row of a label gets the colormap at j / (n - 1),
    where j is the rank of the label among the n sorted distinct labels
    (at 0 when there is one label only), so the first label is at 0 and
    the last at 1. *)
Theorem colormap_palette_evenly_spaced values f default_color ax :
  let n := length (np_unique values) in
  ∃ c legend,
    color_categorical values (Colormap f) default_color ax
    = inr (c, {| _singlet_cmap := Some legend; scattered := scattered ax |}) ∧
    (∀ i x, values !! i = Some x →
       ∃ j, np_unique values !! j = Some x ∧
            c !! i
            = Some (f (Fin (if decide (n = 1%nat) then 0
                            else inject_Z (Z.of_nat j)
                                 / inject_Z (Z.of_nat (n - 1)))))) ∧
    ((2 ≤ n)%nat →
     inject_Z (Z.of_nat 0) / inject_Z (Z.of_nat (n - 1)) == 0 ∧
     inject_Z (Z.of_nat (n - 1)) / inject_Z (Z.of_nat (n - 1)) == 1).
Proof.
  cbv zeta.
  destruct (color_categorical_spec get_cmap values (Colormap f) default_color
              ax I) as (c & legend & Hr & _).
  exists c, legend. split_and!; [done| |apply linspace01_ends].
  intros i x Hi.
  destruct (color_categorical_rows _ _ _ _ _ _ Hr i x Hi)
    as (j & col & Hj & Hcol & Hc).
  exists j. split; [done|]. rewrite Hc. f_equal.
  cbn [category_colors] in Hcol.
  rewrite list_lookup_fmap, linspace01_lookup in Hcol
    by (by eapply lookup_lt_Some).
  by injection Hcol as <-.
Qed.

End CategoricalMore.

(** ** Rescaling, continued *)

Lemma normalize_finite (v lo hi : Q) :
  lo < hi →
  normalize (Fin v) (Fin lo) (Fin hi) = Fin ((v + - lo) / (hi + - lo)).
Proof.
  intros Hlt. unfold normalize, fsub, fadd, fneg, fdiv.
  by rewrite (proj2 (is_zero_false (hi + - lo))) by lra.
Qed.

Lemma rescaled_in_unit (v lo hi : Q) :
  lo < hi → lo <= v <= hi →
  0 <= (v + - lo) / (hi + - lo) <= 1.
Proof.
  intros Hlt [H1 H2]. assert (Hpos : 0 < hi + - lo) by lra. split.
  - apply Qle_shift_div_l; [done|]. lra.
  - apply Qle_shift_div_r; [done|]. lra.
Qed.


Section UnitInterval.
Variable log10 : float64 → float64.
Variable named_rgb : string → Q * Q * Q.
Variable get_cmap : string → float64 → color.

Local Abbreviation color_continuous := (color_continuous log10 named_rgb get_cmap).
Local Abbreviation as_callable := (as_callable get_cmap).

End UnitInterval.

(** ** Dot sizes, continued *)


(** ** dot_plot: the loops over counts and groups *)

Lemma shade_groups_spec (min_size vm vM : float64) (gexist : list string)
    (count : string) (groups : list string)
    (points : gmap (string * string) point) :
  (∀ gr, gr ∈ groups → gr ∈ gexist → is_Some (points !! (count, gr))) →
  shade_groups min_size vm vM gexist count groups points
  = inr (map_imap (λ k p,
           Some (if decide (k.1 = count ∧ k.2 ∈ groups ∧ k.2 ∈ gexist)
                 then shaded min_size vm vM p else p)) points).
Proof.
  revert points. induction groups as [|gr groups IH]; intros points Hall.
  - cbn [shade_groups ret]. f_equal. apply map_eq. intros k.
    rewrite map_lookup_imap. destruct (points !! k) as [p|]; [|done].
    cbn. rewrite decide_False; [done|]. intros (_ & H & _).
    by apply elem_of_nil in H.
  - cbn [shade_groups]. destruct (decide (gr ∈ gexist)) as [Hex|Hex].
    + destruct (Hall gr) as [p Hp]; [left|done|]. rewrite Hp.
      rewrite IH.
      * f_equal. apply map_eq. intros k. rewrite !map_lookup_imap.
        destruct (decide (k = (count, gr))) as [->|Hne].
        -- rewrite lookup_insert_eq, Hp. cbn. f_equal.
           rewrite (decide_True (P := count = count ∧ gr ∈ gr :: groups ∧ _))
             by (split_and!; [done|left|done]).
           by case_decide.
        -- rewrite lookup_insert_ne by done.
           destruct (points !! k) as [q|]; [|done]. cbn.
           f_equal. destruct k as [k1 k2]. cbn [fst snd] in *.
           repeat case_decide; try done; exfalso; set_unfold;
             intuition congruence.
      * intros g Hg Hgex. destruct (decide ((count, g) = (count, gr))) as [->|Hne].
        -- rewrite lookup_insert_eq. by eexists.
        -- rewrite lookup_insert_ne by done. apply Hall; [by right|done].
    + rewrite IH.
      * f_equal. apply map_eq. intros k. rewrite !map_lookup_imap.
        destruct (points !! k) as [q|]; [|done]. cbn. f_equal.
        destruct k as [k1 k2]. cbn [fst snd].
        repeat case_decide; try done; exfalso; set_unfold;
             intuition congruence.
      * intros g Hg Hgex. apply Hall; [by right|done].
Qed.

Lemma shade_groups_missing (min_size vm vM : float64) (gexist : list string)
    (count : string) (groups : list string)
    (points : gmap (string * string) point) gr :
  gr ∈ groups → gr ∈ gexist → points !! (count, gr) = None →
  shade_groups min_size vm vM gexist count groups points = inl KeyError.
Proof.
  revert points. induction groups as [|g groups IH]; intros points Hin Hex Hp.
  { by apply elem_of_nil in Hin. }
  cbn [shade_groups]. destruct (decide (g = gr)) as [->|Hne].
  - rewrite decide_True by done. by rewrite Hp.
  - apply elem_of_cons in Hin as [->|Hin]; [done|].
    destruct (decide (g ∈ gexist)); [|by apply IH].
    destruct (points !! (count, g)); [|done].
    apply IH; [done..|]. rewrite lookup_insert_ne; [done|]. congruence.
Qed.

Lemma same_data_refl points : same_data points points.
Proof. intros k. by destruct (points !! k). Qed.

Lemma same_data_trans p1 p2 p3 :
  same_data p1 p2 → same_data p2 p3 → same_data p1 p3.
Proof.
  intros H12 H23 k. specialize (H12 k). specialize (H23 k).
  destruct (p1 !! k), (p2 !! k), (p3 !! k); try done.
  destruct H12, H23. split; congruence.
Qed.

Lemma shade_groups_same_data (min_size vm vM : float64)
    (gexist : list string) (count : string) (groups : list string)
    (points points' : gmap (string * string) point) :
  shade_groups min_size vm vM gexist count groups points = inr points' →
  same_data points points'.
Proof.
  revert points. induction groups as [|g groups IH]; intros points.
  { cbn [shade_groups ret]. intros [= <-]. apply same_data_refl. }
  cbn [shade_groups]. destruct (decide (g ∈ gexist)); [|apply IH].
  destruct (points !! (count, g)) as [p|] eqn:Hp; [|done].
  intros Hr. eapply same_data_trans; [|exact (IH _ Hr)].
  intros k. destruct (decide (k = (count, g))) as [->|Hne].
  - by rewrite lookup_insert_eq, Hp.
  - rewrite lookup_insert_ne by done. by destruct (points !! k).
Qed.

(** X12. The inner loop of dot_plot over the groups: when every existing
    group of the list has a point for the count, the loop returns, has
    written size and shade of exactly these points and has left every
    other point as it was; when such a point is missing, it raises
    KeyError. *)
Theorem shade_groups_outcome (min_size vm vM : float64)
    (gexist : list string) (count : string) (groups : list string)
    (points : gmap (string * string) point) :
  ((∀ gr, gr ∈ groups → gr ∈ gexist → is_Some (points !! (count, gr))) →
   ∃ points',
     shade_groups min_size vm vM gexist count groups points = inr points' ∧
     ∀ k, points' !! k
          = (λ p, if decide (k.1 = count ∧ k.2 ∈ groups ∧ k.2 ∈ gexist)
                  then shaded min_size vm vM p else p) <$> points !! k) ∧
  (∀ gr, gr ∈ groups → gr ∈ gexist → points !! (count, gr) = None →
   shade_groups min_size vm vM gexist count groups points = inl KeyError).
Proof.
  split.
  - intros Hall. eexists. split; [by apply shade_groups_spec|].
    intros k. rewrite map_lookup_imap. by destruct (points !! k).
  - intros gr. apply shade_groups_missing.
Qed.

(** X13. When the shading loops of dot_plot return, the points frame has
    the keys it had, and fraction and level of every point are
    unchanged. *)
Theorem shade_points_keeps_data (vmin vmax : bound) (min_size : float64)
    (gexist groups plot_list : list string)
    (points points' : gmap (string * string) point) :
  shade_points vmin vmax min_size gexist groups plot_list points
  = inr points' →
  dom points' = dom points ∧
  ∀ k p', points' !! k = Some p' →
    ∃ p, points !! k = Some p ∧
         fraction p' = fraction p ∧ level p' = level p.
Proof.
  intros Hr. assert (Hsame : same_data points points').
  { revert points Hr. induction plot_list as [|count plot_list IH];
      intros points.
    { cbn [shade_points ret]. intros [= <-]. apply same_data_refl. }
    cbn [shade_points].
    destruct (resolve_bound np_min vmin points count) as [e|vm]; [done|].
    cbn [bind].
    destruct (resolve_bound np_max vmax points count) as [e|vM]; [done|].
    cbn [bind].
    destruct (shade_groups _ _ _ _ _ _ _) as [e|points1] eqn:Hg; [done|].
    cbn [bind]. intros Hr.
    eapply same_data_trans; [exact (shade_groups_same_data _ _ _ _ _ _ _ _ Hg)|].
    by apply IH. }
  split.
  - apply set_eq. intros k. rewrite !elem_of_dom. specialize (Hsame k).
    destruct (points !! k), (points' !! k); try done;
      split; intros; (by eexists) || (by destruct select (is_Some None)).
  - intros k p' Hk. specialize (Hsame k). rewrite Hk in Hsame.
    destruct (points !! k) as [p|]; [|done]. by exists p.
Qed.

(** ** dot_plot: the bounds do not move while the points are shaded *)

Lemma filter_fmap_key {A B} (f : A → B) (c : string)
    (l : list (string * string * A)) :
  filter (λ kp : string * string * B, kp.1.1 = c) (prod_map id f <$> l)
  = prod_map id f <$> filter (λ kp : string * string * A, kp.1.1 = c) l.
Proof.
  induction l as [|[k a] l IH]; [done|]. rewrite fmap_cons.
  destruct (decide (k.1 = c)) as [Hk|Hk].
  - rewrite !filter_cons_True by done. by rewrite fmap_cons, IH.
  - by rewrite !filter_cons_False by done.
Qed.

Lemma levels_fmap (points : gmap (string * string) point) :
  levels points = (map_to_list (level <$> points)).*2.
Proof.
  unfold levels. rewrite map_to_list_fmap, <- list_fmap_compose.
  apply list_fmap_ext. by intros ? [k p] _.
Qed.

Lemma levels_of_fmap (points : gmap (string * string) point)
    (count : string) :
  levels_of points count
  = (filter (λ kp : string * string * float64, kp.1.1 = count)
       (map_to_list (level <$> points))).*2.
Proof.
  unfold levels_of. rewrite map_to_list_fmap, filter_fmap_key.
  rewrite <- list_fmap_compose. apply list_fmap_ext. by intros ? [k p] _.
Qed.

Lemma same_data_levels (points points' : gmap (string * string) point) :
  same_data points points' → level <$> points' = level <$> points.
Proof.
  intros Hsame. apply map_eq. intros k. rewrite !lookup_fmap.
  specialize (Hsame k).
  destruct (points !! k), (points' !! k); try done.
  cbn. f_equal. by destruct Hsame.
Qed.

Lemma resolve_bound_same_data (pick : list float64 → result float64)
    (b : bound) (points points' : gmap (string * string) point)
    (count : string) :
  same_data points points' →
  resolve_bound pick b points' count = resolve_bound pick b points count.
Proof.
  intros Hsame%same_data_levels. destruct b; cbn [resolve_bound]; [| |done].
  - by rewrite !levels_fmap, Hsame.
  - by rewrite !levels_of_fmap, Hsame.
Qed.

Lemma shaded_shaded (min_size vm vM vm' vM' : float64) (p : point) :
  shaded min_size vm vM (shaded min_size vm' vM' p) = shaded min_size vm vM p.
Proof. done. Qed.

Lemma shade_groups_inv (min_size vm vM : float64) (gexist : list string)
    (count : string) (groups : list string)
    (points points' : gmap (string * string) point) :
  shade_groups min_size vm vM gexist count groups points = inr points' →
  ∀ k, points' !! k
       = (λ p, if decide (k.1 = count ∧ k.2 ∈ groups ∧ k.2 ∈ gexist)
               then shaded min_size vm vM p else p) <$> points !! k.
Proof.
  intros Hr.
  assert (∀ gr, gr ∈ groups → gr ∈ gexist → is_Some (points !! (count, gr)))
    as Hall.
  { intros gr Hgr Hex. destruct (points !! (count, gr)) eqn:Hp; [by eexists|].
    by rewrite (shade_groups_missing _ _ _ _ _ _ _ _ Hgr Hex Hp) in Hr. }
  rewrite (shade_groups_spec _ _ _ _ _ _ _ Hall) in Hr. injection Hr as <-.
  intros k. rewrite map_lookup_imap. by destruct (points !! k).
Qed.

Lemma shade_points_inv (vmin vmax : bound) (min_size : float64)
    (gexist groups plot_list : list string)
    (points points' : gmap (string * string) point) :
  shade_points vmin vmax min_size gexist groups plot_list points
  = inr points' →
  (∀ count, count ∈ plot_list →
     ∃ vm vM,
       resolve_bound np_min vmin points count = inr vm
       ∧ resolve_bound np_max vmax points count = inr vM
       ∧ ∀ gr, gr ∈ groups → gr ∈ gexist →
           ∃ p, points !! (count, gr) = Some p
                ∧ points' !! (count, gr) = Some (shaded min_size vm vM p))
  ∧ (∀ k, ¬ (k.1 ∈ plot_list ∧ k.2 ∈ groups ∧ k.2 ∈ gexist) →
       points' !! k = points !! k).
Proof.
  revert points. induction plot_list as [|count0 plot_list IH]; intros points.
  { cbn [shade_points ret]. intros [= <-]. split; [|done].
    intros count Hin. by apply elem_of_nil in Hin. }
  cbn [shade_points].
  destruct (resolve_bound np_min vmin points count0) as [|vm0] eqn:Hvm;
    [done|]. cbn [bind].
  destruct (resolve_bound np_max vmax points count0) as [|vM0] eqn:HvM;
    [done|]. cbn [bind].
  destruct (shade_groups _ _ _ _ _ _ _) as [|points1] eqn:Hg; [done|].
  cbn [bind]. intros Hr.
  pose proof (shade_groups_same_data _ _ _ _ _ _ _ _ Hg) as Hsame.
  pose proof (shade_groups_inv _ _ _ _ _ _ _ _ Hg) as Hinv.
  destruct (IH _ Hr) as [IHin IHout]. split.
  - intros count Hin.
    destruct (decide (count ∈ plot_list)) as [Hrest|Hrest].
    + destruct (IHin count Hrest) as (vm & vM & Hm & HM & Hshaded).
      rewrite (resolve_bound_same_data _ _ points points1) in Hm by done.
      rewrite (resolve_bound_same_data _ _ points points1) in HM by done.
      exists vm, vM. split_and!; [done..|].
      intros gr Hgr Hex. destruct (Hshaded gr Hgr Hex) as (p1 & Hp1 & Hp').
      rewrite Hinv in Hp1. destruct (points !! (count, gr)) as [p|]; [|done].
      exists p. split; [done|]. rewrite Hp'. injection Hp1 as <-.
      by case_decide.
    + apply elem_of_cons in Hin as [->|Hin]; [|done].
      exists vm0, vM0. split_and!; [done..|].
      intros gr Hgr Hex. rewrite IHout by (cbn; tauto). rewrite Hinv.
      destruct (points !! (count0, gr)) as [p|] eqn:Hp.
      * exists p. split; [done|]. cbn. by rewrite decide_True.
      * by rewrite (shade_groups_missing _ _ _ _ _ _ _ _ Hgr Hex Hp) in Hg.
  - intros k Hk. rewrite IHout.
    + rewrite Hinv. destruct (points !! k) as [p|]; [|done]. cbn.
      rewrite decide_False; [done|]. intros (<- & ? & ?). apply Hk.
      split_and!; [left|done..].
    + intros (? & ? & ?). apply Hk. split_and!; [by right|done..].
Qed.

(** X14. When the shading loops of dot_plot return: for every count of
    plot_list the two bounds are those resolved on the frame as it was
    before the loops (the shades written meanwhile do not move them),
    every existing group of the list has a point, whose size and shade
    are computed from its own fraction and level with these bounds; a
    point outside plot_list or outside the existing groups of the list
    is untouched. *)
Theorem shade_points_closed_form (vmin vmax : bound) (min_size : float64)
    (gexist groups plot_list : list string)
    (points points' : gmap (string * string) point) :
  shade_points vmin vmax min_size gexist groups plot_list points
  = inr points' →
  (∀ count, count ∈ plot_list →
     ∃ vm vM,
       resolve_bound np_min vmin points count = inr vm
       ∧ resolve_bound np_max vmax points count = inr vM
       ∧ ∀ gr, gr ∈ groups → gr ∈ gexist →
           ∃ p, points !! (count, gr) = Some p
                ∧ points' !! (count, gr) = Some (shaded min_size vm vM p))
  ∧ (∀ k, ¬ (k.1 ∈ plot_list ∧ k.2 ∈ groups ∧ k.2 ∈ gexist) →
       points' !! k = points !! k).
Proof. apply shade_points_inv. Qed.

Lemma elem_of_levels (points : gmap (string * string) point) k p :
  points !! k = Some p → level p ∈ levels points.
Proof.
  intros Hp. unfold levels. apply list_elem_of_fmap.
  exists (k, p). split; [done|]. by apply elem_of_map_to_list.
Qed.

Lemma levels_finite (points : gmap (string * string) point) :
  (∀ k p, points !! k = Some p → finite (level p)) →
  Forall finite (levels points).
Proof.
  intros Hfin. apply Forall_forall. intros v Hv.
  apply list_elem_of_fmap in Hv as ([k p] & -> & Hin).
  apply elem_of_map_to_list in Hin. by eapply Hfin.
Qed.

(** X15. With vmin='min' and vmax='max' and finite levels, the shade of
    every shaded point of dot_plot is a number of [0, 1], or NaN, and
    NaN only when all levels of the frame are equal; it is never
    infinite. *)
Theorem overall_shades_in_unit (min_size : float64)
    (gexist groups plot_list : list string)
    (points points' : gmap (string * string) point) :
  shade_points Overall Overall min_size gexist groups plot_list points
  = inr points' →
  (∀ k p, points !! k = Some p → finite (level p)) →
  ∀ count gr p',
    count ∈ plot_list → gr ∈ groups → gr ∈ gexist →
    points' !! (count, gr) = Some p' →
    match pt_c p' with
    | Fin t => 0 <= t <= 1
    | NaN => ∀ k p, points !! k = Some p → feq (level p) (level p')
    | _ => False
    end.
Proof.
  intros Hr Hfin count gr p' Hcount Hgr Hex Hp'.
  destruct (shade_points_inv _ _ _ _ _ _ _ _ Hr) as [Hin _].
  destruct (Hin count Hcount) as (vm & vM & Hvm & HvM & Hshaded).
  destruct (Hshaded gr Hgr Hex) as (p & Hp & Hp1).
  rewrite Hp1 in Hp'. injection Hp' as <-.
  cbn [resolve_bound] in Hvm, HvM. cbn [pt_c shaded level].
  pose proof (levels_finite _ Hfin) as Hall.
  assert (Forall notnan (levels points)) as Hnn.
  { eapply Forall_impl; [done|]. by intros ? [q ->]. }
  assert (levels points ≠ []) as Hne.
  { intros Hnil. pose proof (elem_of_levels _ _ _ Hp) as Hl.
    rewrite Hnil in Hl. by apply elem_of_nil in Hl. }
  destruct (np_min_spec _ Hne Hnn) as (m & Hm & _ & Hmin & Hle).
  destruct (np_max_spec _ Hne Hnn) as (M & HM & _ & Hmax & Hge).
  rewrite Hm in Hvm. injection Hvm as <-.
  rewrite HM in HvM. injection HvM as <-.
  rewrite Forall_forall in Hall.
  destruct (Hall _ Hmin) as [lo ->]. destruct (Hall _ Hmax) as [hi ->].
  destruct (Hfin _ _ Hp) as [v Hv]. rewrite Hv.
  pose proof (Hle _ (elem_of_levels _ _ _ Hp)) as Hlo.
  pose proof (Hge _ (elem_of_levels _ _ _ Hp)) as Hhi.
  rewrite Hv in Hlo, Hhi. cbn [fleb] in Hlo, Hhi.
  apply Qle_bool_iff in Hlo, Hhi.
  destruct (Qlt_le_dec lo hi) as [Hlt|Hdeg].
  - rewrite normalize_finite by done. by apply rescaled_in_unit.
  - rewrite normalize_degenerate.
    + intros k q Hq. destruct (Hfin _ _ Hq) as [w Hw]. rewrite Hw.
      pose proof (Hle _ (elem_of_levels _ _ _ Hq)) as Hlo'.
      pose proof (Hge _ (elem_of_levels _ _ _ Hq)) as Hhi'.
      rewrite Hw in Hlo', Hhi'. cbn [fleb] in Hlo', Hhi'.
      apply Qle_bool_iff in Hlo', Hhi'. cbn [feq]. lra.
    + cbn [fleb]. by apply Qle_bool_iff.
    + cbn [fleb]. by apply Qle_bool_iff.
    + cbn [feq]. lra.
Qed.

(** ** clustermap: annotations *)

Lemma mapM_inl {A B} (f : A → result B) (l : list A) e :
  mapM f l = inl e → ∃ a, a ∈ l ∧ f a = inl e.
Proof.
  induction l as [|a l IH]; simpl; [done|].
  destruct (f a) as [e'|b] eqn:Hfa; simpl.
  - intros [= <-]. exists a. split; [left|done].
  - destruct (mapM f l) as [e'|bs]; simpl; [|done].
    intros [= <-]. destruct IH as (a' & Ha' & Hfa'); [done|].
    exists a'. split; [by right|done].
Qed.

Lemma index_getitem_error (pal : list color) (l : list string) x e :
  x ∈ l →
  (let* i := index x l in getitem pal i) = inl e → e = IndexError.
Proof.
  intros [i Hi]%index_elem_of. rewrite Hi. cbn [bind].
  unfold getitem. destruct (pal !! i); [done|]. by intros [= <-].
Qed.

(** X16. A qualitative annotation of clustermap with an explicit palette:
    it raises UnboundLocalError when no palette was assigned before;
    ValueError when the palette assigned before is shorter than the
    number of categories, whatever the length of the given one;
    IndexError when that test passes and the given palette is too
    short; otherwise it returns one colour per row, the item of the
    given palette at the rank of the row's label. *)
Theorem explicit_palette_outcome (val : list color) (values : list string) :
  let n := length (np_unique values) in
  annotate_qualitative None val values = inl UnboundLocalError
  ∧ (∀ p, (length p < n)%nat →
       annotate_qualitative (Some p) val values = inl ValueError)
  ∧ (∀ p, (n ≤ length p)%nat → (length val < n)%nat →
       annotate_qualitative (Some p) val values = inl IndexError)
  ∧ (∀ p, (n ≤ length p)%nat → (n ≤ length val)%nat →
       ∃ c, annotate_qualitative (Some p) val values = inr (c, val)
            ∧ length c = length values
            ∧ ∀ i x, values !! i = Some x →
                ∃ j, np_unique values !! j = Some x ∧ c !! i = val !! j).
Proof.
  intros n. split_and!.
  - done.
  - intros p Hp. unfold annotate_qualitative. cbn [bind ret].
    fold n. by rewrite decide_True.
  - intros p Hp Hval. unfold annotate_qualitative. cbn [bind ret].
    fold n. rewrite decide_False by lia.
    destruct (mapM _ values) as [e|c] eqn:Hc; cbn [bind].
    + apply mapM_inl in Hc as (x & Hx & Hfx).
      apply index_getitem_error in Hfx as ->; [done|].
      by apply elem_of_np_unique.
    + exfalso. apply mapM_inr in Hc.
      assert (∀ x, x ∈ np_unique values → ∃ j, np_unique values !! j = Some x
                                               ∧ is_Some (val !! j)) as Hall.
      { intros x Hx. apply (proj1 (elem_of_np_unique _ _)) in Hx.
        apply list_elem_of_lookup in Hx as [i Hi].
        destruct (Forall2_lookup_l _ _ _ _ _ Hc Hi) as (b & _ & Hb).
        destruct (index x (np_unique values)) as [|j] eqn:Hj; [done|].
        cbn [bind] in Hb. unfold getitem in Hb.
        destruct (val !! j) eqn:Hvj; [|done].
        exists j. split; [by apply index_lookup|by eexists]. }
      assert (is_Some (np_unique values !! (n - 1)%nat)) as [x Hx].
      { apply lookup_lt_is_Some. unfold n in *. lia. }
      destruct (Hall x) as (j & Hj & Hsome).
      { by eapply list_elem_of_lookup_2. }
      assert (j = (n - 1)%nat) as ->.
      { eapply NoDup_lookup; [apply np_unique_NoDup|done..]. }
      apply lookup_lt_is_Some in Hsome. lia.
  - intros p Hp Hval. unfold annotate_qualitative. cbn [bind ret].
    fold n. rewrite decide_False by lia.
    destruct (mapM_total
                (λ x, let* i := index x (np_unique values) in getitem val i)
                values) as [c Hc].
    { intros x Hx. apply elem_of_np_unique in Hx.
      destruct (index_elem_of _ _ Hx) as [j Hj]. rewrite Hj. cbn [bind].
      unfold getitem.
      destruct (lookup_lt_is_Some_2 val j) as [y ->]; [|by eexists].
      apply index_lookup, lookup_lt_Some in Hj. unfold n in *. lia. }
    rewrite Hc. cbn [bind]. exists c. split; [done|].
    apply mapM_inr in Hc. split; [symmetry; by eapply Forall2_length|].
    intros i x Hi.
    destruct (Forall2_lookup_l _ _ _ _ _ Hc Hi) as (b & Hb & Hfb).
    destruct (index x (np_unique values)) as [|j] eqn:Hj; [done|].
    cbn [bind] in Hfb. unfold getitem in Hfb.
    destruct (val !! j) eqn:Hvj; [|done].
    exists j. split; [by apply index_lookup|]. injection Hfb as <-.
    by rewrite Hb.
Qed.

Lemma filter_notnan_nil (values : list float64) :
  filter notnan values = [] ↔ Forall (λ v, isnan v = true) values.
Proof.
  rewrite Forall_forall. split.
  - intros Hf v Hv. destruct (isnan v) eqn:Hn; [done|].
    assert (v ∈ filter notnan values) as Hin by by apply list_elem_of_filter.
    rewrite Hf in Hin. by apply elem_of_nil in Hin.
  - intros Hall. destruct (filter notnan values) as [|v l] eqn:Hf; [done|].
    assert (v ∈ filter notnan values) as Hin by (rewrite Hf; left).
    apply list_elem_of_filter in Hin as [Hn Hin].
    specialize (Hall _ Hin). unfold notnan in Hn. congruence.
Qed.

Lemma np_nanmin_spec (values : list float64) v :
  v ∈ values → notnan v →
  ∃ m, np_nanmin values = inr m ∧ notnan m ∧ m ∈ values
       ∧ ∀ y, y ∈ values → notnan y → fleb m y = true.
Proof.
  intros Hin Hv.
  assert (v ∈ filter notnan values) as Hf by by apply list_elem_of_filter.
  destruct (np_min_spec (filter notnan values)) as (m & Hm & Hn & Hmin & Hle).
  { intros Hnil. rewrite Hnil in Hf. by apply elem_of_nil in Hf. }
  { apply Forall_forall. by intros y [Hy _]%list_elem_of_filter. }
  exists m. split_and!.
  - unfold np_nanmin. destruct values; [by apply elem_of_nil in Hin|].
    destruct (filter notnan (f :: values)); [by apply elem_of_nil in Hf|done].
  - done.
  - by apply list_elem_of_filter in Hmin as [_ ?].
  - intros y Hy Hny. apply Hle. by apply list_elem_of_filter.
Qed.

Lemma np_nanmax_spec (values : list float64) v :
  v ∈ values → notnan v →
  ∃ m, np_nanmax values = inr m ∧ notnan m ∧ m ∈ values
       ∧ ∀ y, y ∈ values → notnan y → fleb y m = true.
Proof.
  intros Hin Hv.
  assert (v ∈ filter notnan values) as Hf by by apply list_elem_of_filter.
  destruct (np_max_spec (filter notnan values)) as (m & Hm & Hn & Hmax & Hle).
  { intros Hnil. rewrite Hnil in Hf. by apply elem_of_nil in Hf. }
  { apply Forall_forall. by intros y [Hy _]%list_elem_of_filter. }
  exists m. split_and!.
  - unfold np_nanmax. destruct values; [by apply elem_of_nil in Hin|].
    destruct (filter notnan (f :: values)); [by apply elem_of_nil in Hf|done].
  - done.
  - by apply list_elem_of_filter in Hmax as [_ ?].
  - intros y Hy Hny. apply Hle. by apply list_elem_of_filter.
Qed.

Lemma normalize_nan_bounds v : normalize v NaN NaN = NaN.
Proof. by destruct v. Qed.

Section SequentialAnnotation.
Variable log10 : float64 → float64.
Variable named_rgb : string → Q * Q * Q.
Variable get_cmap : string → float64 → color.

(** X17. A numeric annotation of clustermap through a colormap: an empty
    column raises ValueError; a non-empty column of NaN only is
    coloured, every row with the colormap's value at NaN, where
    scatter_reduced raises ValueError on the same column; with one
    number at least, the bounds are the least and the greatest number
    of the column, NaN entries left aside, and every row gets the
    colormap at its rescaled value. *)
Theorem sequential_annotation (f : float64 → color) (key : string)
    (values : list float64) :
  (values = [] → annotate_sequential (ret f) key values = inl ValueError)
  ∧ (values ≠ [] → Forall (λ v, isnan v = true) values →
       annotate_sequential (ret f) key values
       = inr (replicate (length values) (f NaN), Sequential key f NaN NaN)
       ∧ ∀ by_phenotype color_log default_color pseudocount high_on_top
           tiers,
           color_continuous log10 named_rgb get_cmap values by_phenotype
             color_log (Colormap f) default_color pseudocount high_on_top
             tiers = inl ValueError)
  ∧ (∀ v, v ∈ values → notnan v →
       ∃ lo hi,
         annotate_sequential (ret f) key values
         = inr ((λ x, f (normalize x lo hi)) <$> values,
                Sequential key f lo hi)
         ∧ notnan lo ∧ notnan hi ∧ lo ∈ values ∧ hi ∈ values
         ∧ ∀ y, y ∈ values → notnan y →
             fleb lo y = true ∧ fleb y hi = true).
Proof.
  split_and!.
  - by intros ->.
  - intros Hne Hall. pose proof (proj2 (filter_notnan_nil values) Hall) as Hf.
    split.
    + unfold annotate_sequential, np_nanmax, np_nanmin.
      destruct values as [|v0 l]; [done|]. rewrite Hf. cbn [bind ret].
      do 2 f_equal. clear. generalize (v0 :: l). intros l'.
      induction l' as [|x l' IH]; [done|].
      rewrite !fmap_cons, normalize_nan_bounds, IH. done.
    + intros. unfold color_continuous.
      by rewrite unmask_fmap, select_unmask, Hf.
  - intros v Hin Hv.
    destruct (np_nanmin_spec values v Hin Hv) as (lo & Hlo & Hnlo & Hinlo & Hle).
    destruct (np_nanmax_spec values v Hin Hv) as (hi & Hhi & Hnhi & Hinhi & Hge).
    exists lo, hi. split_and!; try done.
    + unfold annotate_sequential. rewrite Hhi, Hlo. cbn [bind ret].
      by rewrite <- list_fmap_compose.
    + intros y Hy Hny. split; [by apply Hle|by apply Hge].
Qed.
End SequentialAnnotation.

(** ** clustermap: the stale palette and the missing tick labels *)

Section ClustermapLoop.
Variable get_cmap : string → float64 → color.
Variable color_palette : string → nat → list color.

Local Abbreviation annotate := (annotate get_cmap color_palette).
Local Abbreviation annotate_loop := (annotate_loop get_cmap color_palette).
Local Abbreviation clustermap_samples :=
  (clustermap_samples get_cmap color_palette).

Lemma annotate_sequential_inv cmap key values c cbi :
  annotate_sequential cmap key values = inr (c, cbi) →
  ∃ f lo hi, cbi = Sequential key f lo hi.
Proof.
  unfold annotate_sequential.
  destruct (np_nanmax values) as [|hi]; [done|].
  destruct (np_nanmin values) as [|lo]; [done|].
  destruct cmap as [|f]; [done|]. cbn [bind ret].
  intros [= <- <-]. by eexists _, _, _.
Qed.

Lemma annotate_explicit_inv palette key l values c cbi palette' :
  annotate palette key (Colors l) (Labels values) = inr (c, cbi, palette') →
  is_Some palette ∧ ∃ pal n, cbi = Qualitative key pal None n.
Proof.
  cbn [annotate]. destruct palette as [p|]; [|done].
  destruct (annotate_qualitative (Some p) l values) as [|[c' p']]; [done|].
  cbn [bind ret]. intros [= <- <- <-]. split; [by eexists|by eexists _, _].
Qed.

Lemma annotate_palette palette key val col c cbi palette' :
  annotate palette key val col = inr (c, cbi, palette') →
  is_Some palette' →
  is_Some palette ∨ ∃ s values, val = Name s ∧ col = Labels values.
Proof.
  destruct val as [s|l|f], col as [values|values]; cbn [annotate].
  - intros _ _. right. by eexists _, _.
  - destruct (annotate_sequential _ _ _) as [|[c' cbi']]; [done|].
    cbn [bind ret]. intros [= <- <- <-]. by left.
  - destruct palette as [p|]; [|done]. intros _ _. left. by eexists.
  - destruct (annotate_sequential _ _ _) as [|[c' cbi']]; [done|].
    cbn [bind ret]. intros [= <- <- <-]. by left.
  - destruct palette as [p|]; [|done]. intros _ _. left. by eexists.
  - destruct (annotate_sequential _ _ _) as [|[c' cbi']]; [done|].
    cbn [bind ret]. intros [= <- <- <-]. by left.
Qed.

Lemma annotation_data_labels ds key values :
  metadata ds !! key = Some (Labels values) →
  annotation_data ds key = inr (Labels values).
Proof. intros Hm. unfold annotation_data. by rewrite Hm. Qed.

Lemma annotation_data_labels_inv ds key values :
  annotation_data ds key = inr (Labels values) →
  metadata ds !! key = Some (Labels values).
Proof.
  unfold annotation_data. destruct (metadata ds !! key) as [col|].
  - by intros [= ->].
  - by destruct (data ds !! key).
Qed.

Lemma annotate_loop_cons_inv ds palette key val items r :
  annotate_loop ds palette ((key, val) :: items) = inr r →
  ∃ col c cbi palette' cs cbis,
    annotation_data ds key = inr col
    ∧ annotate palette key val col = inr (c, cbi, palette')
    ∧ annotate_loop ds palette' items = inr (cs, cbis)
    ∧ r = (c :: cs, cbi :: cbis).
Proof.
  change (annotate_loop ds palette ((key, val) :: items))
    with (let* color_data := annotation_data ds key in
          let* ' (c, cbi, palette) := annotate palette key val color_data in
          let* ' (cs, cbis) := annotate_loop ds palette items in
          ret (c :: cs, cbi :: cbis)).
  destruct (annotation_data ds key) as [|col]; [done|]. cbn [bind].
  destruct (annotate palette key val col) as [|[[c cbi] p']] eqn:Hann;
    [done|].
  cbn [bind].
  destruct (annotate_loop ds p' items) as [|[cs cbis]] eqn:Hloop; [done|].
  cbn [bind ret]. intros [= <-]. by eexists _, _, _, _, _, _.
Qed.

Lemma annotate_loop_named_before ds palette items r :
  annotate_loop ds palette items = inr r →
  ∀ i key l values,
    items !! i = Some (key, Colors l) →
    metadata ds !! key = Some (Labels values) →
    is_Some palette
    ∨ ∃ j key' s values',
        (j < i)%nat ∧ items !! j = Some (key', Name s)
        ∧ metadata ds !! key' = Some (Labels values').
Proof.
  revert palette r. induction items as [|[k v] items IH]; intros palette r Hr.
  { intros i ? ? ?. by rewrite lookup_nil. }
  apply annotate_loop_cons_inv in Hr
    as (col & c & cbi & p' & cs & cbis & Hcol & Hann & Hloop & ->).
  intros [|i] key l values Hi Hm.
  - injection Hi as -> ->. rewrite (annotation_data_labels _ _ _ Hm) in Hcol.
    injection Hcol as <-. left.
    by apply annotate_explicit_inv in Hann as [? _].
  - cbn in Hi. destruct (IH _ _ Hloop i key l values Hi Hm)
      as [Hsome|(j & key' & s & values' & Hj & Hitem & Hm')].
    + destruct (annotate_palette _ _ _ _ _ _ _ Hann Hsome)
        as [?|(s & values' & -> & ->)]; [by left|].
      right. exists 0%nat, k, s, values'. split_and!; [lia|done|].
      by apply annotation_data_labels_inv.
    + right. exists (S j), key', s, values'. split_and!; [lia|done..].
Qed.

(** X18. When the loop over annotate_samples returns, every explicit
    palette given for a column of labels comes after an entry that
    names a palette for a column of labels. *)
Theorem explicit_palette_needs_named_before ds items r :
  annotate_loop ds None items = inr r →
  ∀ i key l values,
    items !! i = Some (key, Colors l) →
    metadata ds !! key = Some (Labels values) →
    ∃ j key' s values',
      (j < i)%nat ∧ items !! j = Some (key', Name s)
      ∧ metadata ds !! key' = Some (Labels values').
Proof.
  intros Hr i key l values Hi Hm.
  destruct (annotate_loop_named_before _ _ _ _ Hr i key l values Hi Hm)
    as [[? [=]]|?]; done.
Qed.

Lemma annotate_loop_explicit_cbar ds palette items cs cbis key l values :
  annotate_loop ds palette items = inr (cs, cbis) →
  (key, Colors l) ∈ items →
  metadata ds !! key = Some (Labels values) →
  ∃ pal n, Qualitative key pal None n ∈ cbis.
Proof.
  revert palette cs cbis.
  induction items as [|[k v] items IH]; intros palette cs cbis Hr Hin Hm.
  { by apply elem_of_nil in Hin. }
  apply annotate_loop_cons_inv in Hr
    as (col & c & cbi & p' & cs' & cbis' & Hcol & Hann & Hloop & [= -> ->]).
  apply elem_of_cons in Hin as [[= <- <-]|Hin].
  - rewrite (annotation_data_labels _ _ _ Hm) in Hcol. injection Hcol as <-.
    apply annotate_explicit_inv in Hann as [_ (pal & n & ->)].
    exists pal, n. left.
  - destruct (IH _ _ _ Hloop Hin Hm) as (pal & n & Hcb).
    exists pal, n. by right.
Qed.

Lemma draw_colorbar_unlabelled cax name pal n :
  ∃ e, draw_colorbar cax (Qualitative name pal None n) = inl e.
Proof.
  cbn [draw_colorbar]. destruct (colorbar_bounds n); [by eexists|].
  destruct (colorbar_ticks n); by eexists.
Qed.

Lemma draw_colorbars_from_unlabelled horizontal size pos cbars name pal n :
  Qualitative name pal None n ∈ cbars →
  ∃ e, draw_colorbars_from horizontal size pos cbars = inl e.
Proof.
  revert pos. induction cbars as [|cbi cbars IH]; intros pos Hin.
  { by apply elem_of_nil in Hin. }
  cbn [draw_colorbars_from]. apply elem_of_cons in Hin as [<-|Hin].
  - destruct (draw_colorbar_unlabelled (box_at horizontal size pos)
                name pal n) as [e ->].
    by eexists.
  - destruct (draw_colorbar _ cbi); [by eexists|].
    destruct (IH (if horizontal then pos + (size + (5 # 100))
                  else pos - (size + (5 # 100))) Hin) as [e ->].
    by eexists.
Qed.

(** X19. clustermap with colorbars=True raises whenever annotate_samples
    gives an explicit palette for a column of labels: the colorbar of
    such an annotation reads a 'ticklabels' entry that its branch never
    writes. *)
Theorem explicit_palette_colorbar_fails ds items orientation key l values :
  (key, Colors l) ∈ items →
  metadata ds !! key = Some (Labels values) →
  ∃ e, clustermap_samples ds (Some items) orientation true = inl e.
Proof.
  intros Hin Hm. unfold clustermap_samples.
  destruct items as [|item items]; [by apply elem_of_nil in Hin|].
  destruct (annotate_loop ds None (item :: items)) as [e|[cs cbis]] eqn:Hloop;
    cbn [lift]; [by eexists|].
  destruct (negb _); [by eexists|].
  destruct (annotate_loop_explicit_cbar _ _ _ _ _ _ _ _ Hloop Hin Hm)
    as (pal & n & Hcb).
  unfold draw_colorbars. destruct (pydiv _ _) as [|q]; [by eexists|].
  edestruct draw_colorbars_from_unlabelled as [e ->]; [done|]. by eexists.
Qed.
End ClustermapLoop.

(** ** clustermap: geometry of the colorbars *)

Lemma collect_fmap {E A B} (f : A → E + B) (g : A → B) (l : list A) :
  (∀ a, a ∈ l → f a = inr (g a)) → collect f l = inr (g <$> l).
Proof.
  induction l as [|a l IH]; intros Hall; [done|].
  cbn [collect]. rewrite (Hall a) by left.
  rewrite IH; [done|]. intros a' Ha'. apply Hall. by right.
Qed.

Lemma nat_to_Q_S n : nat_to_Q (S n) == nat_to_Q n + 1.
Proof.
  unfold nat_to_Q. rewrite Nat2Z.inj_succ, <- Z.add_1_r, inject_Z_plus. done.
Qed.

Lemma nat_to_Q_nonneg n : 0 <= nat_to_Q n.
Proof. unfold nat_to_Q, Qle. simpl. lia. Qed.

Lemma nat_to_Q_le n m : (n ≤ m)%nat ↔ nat_to_Q n <= nat_to_Q m.
Proof. unfold nat_to_Q. rewrite <- Zle_Qle. lia. Qed.

Lemma nat_to_Q_double n : nat_to_Q (n * 2) == 2 * nat_to_Q n.
Proof.
  unfold nat_to_Q. rewrite Nat2Z.inj_mul, inject_Z_mult.
  change (inject_Z (Z.of_nat 2)) with 2. ring.
Qed.

Lemma nat_to_Q_sub n i :
  (i ≤ n)%nat → nat_to_Q (n - i) == nat_to_Q n - nat_to_Q i.
Proof.
  intros Hi. unfold nat_to_Q.
  rewrite Nat2Z.inj_sub by done. unfold Z.sub.
  rewrite inject_Z_plus, inject_Z_opp. lra.
Qed.

(** X20. The boundaries of a qualitative colorbar cannot be computed for
    zero colours (division by zero); for n >= 1 colours there are n + 1
    boundaries from 0 to 1 and n ticks, the boundaries increase strictly
    and every tick is the midpoint of two neighbouring boundaries. *)
Theorem colorbar_ticks_midpoints (n : nat) :
  colorbar_bounds 0 = inl ZeroDivisionError
  ∧ ∃ bounds ticks,
      colorbar_bounds (S n) = inr bounds
      ∧ colorbar_ticks (S n) = inr ticks
      ∧ length bounds = S (S n) ∧ length ticks = S n
      ∧ (∀ b, bounds !! 0%nat = Some b → b == 0)
      ∧ (∀ b, bounds !! S n = Some b → b == 1)
      ∧ ∀ i b b' t,
          bounds !! i = Some b → bounds !! S i = Some b' →
          ticks !! i = Some t →
          b < b' ∧ t == (b + b') / 2.
Proof.
  split; [done|].
  exists ((λ i, 1 * nat_to_Q i / nat_to_Q (S n)) <$> seq 0 (S n + 1)),
         ((λ i, (2 * nat_to_Q i + 1) / nat_to_Q (S n * 2)) <$> seq 0 (S n)).
  assert (0 < nat_to_Q (S n)) as Hpos.
  { pose proof (nat_to_Q_nonneg n). rewrite nat_to_Q_S. lra. }
  split_and!.
  - unfold colorbar_bounds. by apply collect_fmap.
  - unfold colorbar_ticks. by apply collect_fmap.
  - rewrite length_fmap, length_seq. lia.
  - by rewrite length_fmap, length_seq.
  - intros b. rewrite list_lookup_fmap, lookup_seq_lt by lia.
    intros [= <-]. change (nat_to_Q 0) with 0.
    revert Hpos. generalize (nat_to_Q (S n)). intros d Hd. field. lra.
  - intros b. rewrite list_lookup_fmap, lookup_seq_lt by lia.
    intros [= <-]. change (0 + S n)%nat with (S n).
    revert Hpos. generalize (nat_to_Q (S n)). intros d Hd. field. lra.
  - intros i b b' t. rewrite !list_lookup_fmap.
    intros Hb Hb' Ht.
    destruct (seq 0 (S n) !! i) as [k|] eqn:Hk; [|done].
    apply lookup_seq in Hk as [-> Hi]. injection Ht as <-.
    rewrite lookup_seq_lt in Hb by lia. injection Hb as <-.
    rewrite lookup_seq_lt in Hb' by lia. injection Hb' as <-.
    change (0 + i)%nat with i. change (0 + S i)%nat with (S i).
    change (S (S (n * 2))) with (S n * 2)%nat.
    rewrite nat_to_Q_double, (nat_to_Q_S i).
    revert Hpos. generalize (nat_to_Q (S n)), (nat_to_Q i). intros d k Hd.
    split.
    + apply Qlt_minus_iff.
      setoid_replace (1 * (k + 1) / d + - (1 * k / d))
        with (/ d) using relation Qeq by (field; lra).
      by apply Qinv_lt_0_compat.
    + field. lra.
Qed.

Lemma draw_colorbar_cax cax cbi cb :
  draw_colorbar cax cbi = inr cb → cax_of cb = cax.
Proof.
  destruct cbi as [name pal tl n|name f lo hi]; cbn [draw_colorbar].
  - destruct (colorbar_bounds n); [done|].
    destruct (colorbar_ticks n); [done|].
    destruct tl; [|done]. by intros [= <-].
  - by intros [= <-].
Qed.

Lemma draw_colorbars_from_boxes horizontal size pos cbars cbs :
  draw_colorbars_from horizontal size pos cbars = inr cbs →
  length cbs = length cbars
  ∧ ∀ i cb, cbs !! i = Some cb →
      ∃ p, cax_of cb = box_at horizontal size p
           ∧ p == if horizontal then pos + nat_to_Q i * (size + (5 # 100))
                  else pos - nat_to_Q i * (size + (5 # 100)).
Proof.
  revert pos cbs. induction cbars as [|cbi cbars IH]; intros pos cbs.
  { intros [= <-]. split; [done|]. intros i cb. by rewrite lookup_nil. }
  cbn [draw_colorbars_from].
  destruct (draw_colorbar _ cbi) as [|cb0] eqn:Hcb; [done|].
  destruct (draw_colorbars_from _ _ _ cbars) as [|cbs'] eqn:Hrest; [done|].
  intros [= <-]. destruct (IH _ _ Hrest) as [Hlen Hbox].
  split; [cbn [length]; by rewrite Hlen|].
  intros [|i] cb Hi.
  - injection Hi as <-. exists pos. split.
    + by apply draw_colorbar_cax in Hcb.
    + change (nat_to_Q 0) with 0. destruct horizontal; lra.
  - destruct (Hbox i cb Hi) as (p & Hp & Heq). exists p. split; [done|].
    destruct horizontal; rewrite Heq, (nat_to_Q_S i); ring.
Qed.

(** X21. When the colorbars of the annotations are drawn, there is one
    per annotation and at least one, all of the same size min(0.3,
    0.4 / n); horizontal ones go from left to right with a gap of 0.05
    and the last one ends at 0.98, vertical ones go downwards from
    0.98 with the same gap; the outermost edge stays inside the figure
    exactly when there are at most twelve. *)
Theorem colorbar_layout (horizontal : bool) (cbars : list cbar)
    (cbs : list colorbar) :
  draw_colorbars horizontal cbars = inr cbs →
  let n := length cbars in
  let size := Qmin (3 # 10) ((4 # 10) / nat_to_Q n) in
  length cbs = n ∧ (1 ≤ n)%nat
  ∧ (∀ i cb, cbs !! i = Some cb →
       ∃ pos, cax_of cb = box_at horizontal size pos
              ∧ pos == if horizontal
                       then (98 # 100) - nat_to_Q (n - i) * size
                            - nat_to_Q (n - 1 - i) * (5 # 100)
                       else (98 # 100) - nat_to_Q (S i) * size
                            - nat_to_Q i * (5 # 100))
  ∧ (0 <= (98 # 100) - nat_to_Q n * size - nat_to_Q (n - 1) * (5 # 100)
     ↔ (n ≤ 12)%nat).
Proof.
  intros Hdraw n size. unfold draw_colorbars in Hdraw. fold n in Hdraw.
  destruct n as [|m] eqn:Hn; [done|]. cbn [pydiv] in Hdraw. fold size in Hdraw.
  apply draw_colorbars_from_boxes in Hdraw as [Hlen Hbox].
  split_and!; [lia|lia| |].
  - intros i cb Hi. destruct (Hbox i cb Hi) as (p & Hp & Heq).
    exists p. split; [done|].
    assert (i < S m)%nat as Hlt.
    { apply lookup_lt_Some in Hi. lia. }
    destruct horizontal.
    + rewrite (nat_to_Q_sub (S m) i), (nat_to_Q_sub (S m - 1) i) by lia.
      rewrite (nat_to_Q_sub (S m) 1) by lia. change (nat_to_Q 1) with 1. lra.
    + rewrite (nat_to_Q_S i). lra.
  - replace (S m - 1)%nat with m by lia.
    pose proof (nat_to_Q_nonneg m) as Hm. pose proof (nat_to_Q_S m) as HS.
    destruct m as [|m'].
    + change (nat_to_Q 0) with 0 in *. change (nat_to_Q 1) with 1 in *.
      assert (size == 3 # 10) as ->.
      { unfold size. apply Q.min_l. change (nat_to_Q 1) with 1.
        unfold Qle, Qdiv. simpl. lia. }
      split; [lia|]. intros _. lra.
    + assert (size * nat_to_Q (S (S m')) == 4 # 10) as Hw.
      { unfold size.
        assert (1 <= nat_to_Q (S m')) as Hm1.
        { pose proof (nat_to_Q_S m'). pose proof (nat_to_Q_nonneg m'). lra. }
        revert Hm1 HS. generalize (nat_to_Q (S (S m'))), (nat_to_Q (S m')).
        intros d d' Hd' Hd. rewrite Q.min_r.
        - field. lra.
        - apply Qle_shift_div_r; lra. }
      rewrite (Qmult_comm (nat_to_Q _) size), Hw.
      rewrite (nat_to_Q_le (S (S m')) 12). change (nat_to_Q 12) with 12.
      rewrite HS. split; intros H.
      * assert (nat_to_Q (S m') <= 58 # 5) as Hle by lra.
        assert (S m' ≤ 11)%nat; [|apply nat_to_Q_le in H0;
          change (nat_to_Q 11) with 11 in H0; lra].
        unfold nat_to_Q, Qle in Hle. simpl in Hle. lia.
      * lra.
Qed.

(** ** plot_coverage *)

Global Instance np_sort_le_total : Total np_sort_le.
Proof.
  intros x y. unfold np_sort_le.
  destruct x as [a| | |], y as [b| | |]; simpl; auto.
  rewrite !Qle_bool_iff. destruct (Qlt_le_dec a b); [left|right]; right; lra.
Qed.


(** ** Axis labels *)

Lemma length_map_string f s :
  String.length (map_string f s) = String.length s.
Proof. induction s as [|c s IH]; [done|]. cbn. by rewrite IH. Qed.

Lemma replace_char_absent old new s :
  old ≠ new → ¬ In old (String.list_ascii_of_string (replace_char old new s)).
Proof.
  intros Hne. unfold replace_char.
  induction s as [|c s IH]; [by intros []|].
  cbn. intros [Hin|Hin]; [|done].
  destruct (Ascii.eqb_spec c old) as [->|Hc]; congruence.
Qed.

Lemma counts_label_other key normalized (props : gmap string axprop) k :
  k ≠ key → counts_label key normalized props !! k = props !! k.
Proof.
  intros Hk. unfold counts_label.
  destruct normalized as [s|]; [|by rewrite lookup_insert_ne].
  destruct (String.eqb s ""); [by rewrite lookup_insert_ne|].
  destruct (negb _); [by rewrite lookup_insert_ne|done].
Qed.

(** X23. The label of the counts axis touches no other property; a
    'custom' normalization sets none; any other setting sets a label
    without underscore, of the same length as the name of the
    normalization when there is one. *)
Theorem counts_label_text (key : string) (normalized : option string)
    (props : gmap string axprop) :
  (∀ k, k ≠ key → counts_label key normalized props !! k = props !! k)
  ∧ (normalized = Some "custom" →
     counts_label key normalized props = props)
  ∧ (normalized ≠ Some "custom" →
     ∃ l, counts_label key normalized props !! key = Some (Label l)
          ∧ ¬ In underscore (String.list_ascii_of_string l)
          ∧ ∀ s, normalized = Some s → s ≠ "" →
              String.length l = String.length s).
Proof.
  split_and!.
  - intros k Hk. by apply counts_label_other.
  - by intros ->.
  - intros Hne. unfold counts_label. destruct normalized as [s|].
    + destruct (String.eqb_spec s "") as [->|Hs].
      * exists "Number of reads". rewrite lookup_insert_eq.
        split; [done|]. split; [|by intros ? [= <-]].
        cbn. intros H. repeat destruct H as [H|H]; try done.
      * destruct (String.eqb_spec s "custom") as [->|Hc]; [done|].
        cbn [negb]. eexists. rewrite lookup_insert_eq. split; [done|].
        split; [by apply replace_char_absent|].
        intros s' [= <-] _. unfold replace_char.
        rewrite length_map_string. destruct s as [|c s]; [done|].
        cbn. by rewrite length_map_string.
    + exists "Number of reads". rewrite lookup_insert_eq.
      split; [done|]. split; [|done].
      cbn. intros H. repeat destruct H as [H|H]; try done.
Qed.

(** ** scatter_statistics *)


(** ** plot_distributions *)

Lemma fmax2_finite (q b : Q) :
  ∃ q', fmax2 (Fin q) (Fin b) = Fin q' ∧ q' == Qmax q b.
Proof.
  unfold fmax2. cbn [isnan orb fleb].
  destruct (Qle_bool q b) eqn:Hle.
  - exists b. split; [reflexivity|]. apply Qle_bool_iff in Hle.
    symmetry. by apply Q.max_r.
  - exists q. split; [reflexivity|]. symmetry. apply Q.max_l.
    destruct (Qlt_le_dec b q) as [?|Hle']; [lra|].
    apply Qle_bool_iff in Hle'. rewrite Hle' in Hle. discriminate.
Qed.



(** ** plot_group_abundance_changes *)

Lemma np_unique_nonempty (values : list string) :
  values ≠ [] → np_unique values ≠ [].
Proof.
  destruct values as [|v values]; [done|]. intros _ Hnil.
  assert (v ∈ np_unique (v :: values)) as Hin.
  { apply elem_of_np_unique. left. }
  rewrite Hnil in Hin. by apply elem_of_nil in Hin.
Qed.

Lemma sum_list_cons (x : nat) (l : list nat) :
  sum_list (x :: l) = (x + sum_list l)%nat.
Proof. reflexivity. Qed.

Lemma sum_list_zero {A} (l : list A) : sum_list ((λ _, 0%nat) <$> l) = 0%nat.
Proof.
  induction l as [|g l IH]; [done|]. by rewrite fmap_cons, sum_list_cons, IH.
Qed.

Lemma indicator_sum (l : list string) (x : string) :
  NoDup l →
  sum_list ((λ g, if decide (g = x) then 1%nat else 0%nat) <$> l)
  = if decide (x ∈ l) then 1%nat else 0%nat.
Proof.
  induction 1 as [|g l Hg Hl IH]; [done|].
  rewrite fmap_cons, sum_list_cons, IH.
  destruct (decide (g = x)) as [->|Hne].
  - rewrite decide_False by done. by rewrite decide_True by left.
  - destruct (decide (x ∈ l)) as [Hin|Hin].
    + by rewrite decide_True by by right.
    + rewrite decide_False; [done|].
      intros [?|?]%elem_of_cons; congruence.
Qed.

Lemma group_count_cons s samples g a :
  group_count (s :: samples) g a
  = ((if decide (s = (g, a)) then 1 else 0) + group_count samples g a)%nat.
Proof.
  unfold group_count. destruct (decide (s = (g, a))) as [Heq|Hne].
  - by rewrite filter_cons_True.
  - by rewrite filter_cons_False.
Qed.

Lemma sum_list_fmap_add {A} (f h : A → nat) (l : list A) :
  sum_list ((λ g, (f g + h g)%nat) <$> l)
  = (sum_list (f <$> l) + sum_list (h <$> l))%nat.
Proof.
  induction l as [|g l IH]; [done|].
  rewrite !fmap_cons, !sum_list_cons, IH. lia.
Qed.

Lemma group_count_sum (samples : list (string * string)) (l : list string)
    (a : string) :
  NoDup l → (∀ s, s ∈ samples → s.1 ∈ l) →
  sum_list ((λ g, group_count samples g a) <$> l)
  = length (filter (λ s, s.2 = a) samples).
Proof.
  intros Hnd. induction samples as [|[g0 a0] samples IH]; intros Hall.
  - unfold group_count. cbn [filter list_filter length].
    apply sum_list_zero.
  - erewrite (list_fmap_ext _ (λ g, ((if decide (g = g0 ∧ a0 = a)
                                      then 1 else 0)
                                     + group_count samples g a)%nat));
      [|intros ? g _; rewrite group_count_cons;
        destruct (decide ((g0, a0) = (g, a))) as [[= -> ->]|Hne];
        [by rewrite decide_True|
         rewrite decide_False; [done|]; intros [-> ->]; done]].
    rewrite sum_list_fmap_add, IH
      by (intros s Hs; apply Hall; by right).
    destruct (decide (a0 = a)) as [->|Hne].
    + rewrite filter_cons_True by done. cbn [length]. f_equal.
      erewrite (list_fmap_ext _ (λ g, if decide (g = g0) then 1%nat
                                      else 0%nat));
        [|intros ? g _; destruct (decide (g = g0));
          [by rewrite decide_True|by rewrite decide_False by tauto]].
      rewrite indicator_sum by done. rewrite decide_True; [done|].
      apply (Hall (g0, a)). left.
    + rewrite filter_cons_False by done.
      erewrite (list_fmap_ext _ (λ g, 0%nat));
        [|intros ? g _; by rewrite decide_False by tauto].
      by rewrite sum_list_zero.
Qed.

Lemma np_sum_counts {A} (c : A → nat) (l : list A) (s : Q) :
  ∃ t, foldl fadd (Fin s) ((λ g, nat_to_float (c g)) <$> l) = Fin t
       ∧ t == s + nat_to_Q (sum_list (c <$> l)).
Proof.
  revert s. induction l as [|g l IH]; intros s.
  - exists s. split; [done|]. cbn. change (nat_to_Q 0) with 0. lra.
  - rewrite !fmap_cons. cbn [foldl]. unfold nat_to_float at 1.
    cbn [fadd]. destruct (IH (s + inject_Z (Z.of_nat (c g)))) as (t & -> & Ht).
    exists t. split; [done|]. rewrite Ht, sum_list_cons.
    unfold nat_to_Q. rewrite Nat2Z.inj_add, inject_Z_plus. lra.
Qed.

Section GroupAbundanceProperties.
Variable ln : float64 → float64.
Variable pchip_interpolate
  : list nat → list float64 → list float64 → result (list float64).

Local Abbreviation abundance_group := (abundance_group pchip_interpolate).
Local Abbreviation abundance_loop := (abundance_loop pchip_interpolate).
Local Abbreviation plot_group_abundance_changes :=
  (plot_group_abundance_changes ln pchip_interpolate).

Lemma abundance_data_labels samples kind ymin log data :
  abundance_data ln samples kind ymin log = inr data →
  frame_index data = np_unique samples.*1
  ∧ frame_columns data = np_unique samples.*2.
Proof.
  unfold abundance_data.
  destruct (String.eqb kind "fraction");
    [|destruct (String.eqb kind "percent");
      [|destruct (negb (String.eqb kind "number")); [done|]]];
    cbn [bind ret]; intros [= <-];
    (destruct log as [base|]; [destruct (truthy base)|]); done.
Qed.

Lemma abundance_group_needs_dicts cmap skw ikw x ig go y :
  skw = None ∨ ikw = None →
  ∃ e, abundance_group cmap skw ikw x ig go y = inl e.
Proof.
  intros Hnone. unfold abundance_group.
  destruct (match cmap with NoColors => _ | _ => _ end) as [|kw];
    [by eexists|]. cbn [bind].
  destruct skw as [other|]; [|by eexists]. cbn [bind ret].
  destruct Hnone as [[=]| ->].
  destruct (decide _); [by eexists|].
  destruct (last x); [|by eexists]. cbn [bind ret].
  destruct (pchip_interpolate _ _ _); by eexists.
Qed.

(** X26. plot_group_abundance_changes on a non-empty sample sheet never
    returns while scatter_kwargs or interpolate_kwargs is None, whatever
    the flags scatter and interpolate are; with scatter_kwargs at its
    default None, no cmap and a supported kind it raises TypeError. *)
Theorem abundance_needs_keyword_dicts (samples : list (string * string))
    (along kind : string) (scatter interpolate : bool) (cmap : group_colors)
    (scatter_kwargs interpolate_kwargs : option (gmap string pval))
    (log : option float64) (ymin : float64) :
  samples ≠ [] →
  scatter_kwargs = None ∨ interpolate_kwargs = None →
  (∃ e, plot_group_abundance_changes samples along kind scatter interpolate
          cmap scatter_kwargs interpolate_kwargs log ymin = inl e)
  ∧ (scatter_kwargs = None → cmap = NoColors →
     kind ∈ ["number"; "fraction"; "percent"] →
     plot_group_abundance_changes samples along kind scatter interpolate
       cmap scatter_kwargs interpolate_kwargs log ymin = inl TypeError).
Proof.
  intros Hne Hnone.
  assert (np_unique samples.*1 ≠ []) as Hgroups.
  { apply np_unique_nonempty. by destruct samples. }
  split.
  - unfold plot_group_abundance_changes.
    destruct (abundance_data ln samples kind ymin log) as [|data] eqn:Hdata;
      [by eexists|]. cbn [bind].
    apply abundance_data_labels in Hdata as [Hidx _]. rewrite Hidx.
    destruct (np_unique samples.*1) as [|go gorder]; [done|].
    cbn [abundance_loop].
    edestruct abundance_group_needs_dicts as [e ->]; [done|]. by eexists.
  - intros -> -> Hkind.
    unfold plot_group_abundance_changes.
    destruct (abundance_data ln samples kind ymin log) as [|data] eqn:Hdata.
    + exfalso. unfold abundance_data in Hdata.
      rewrite !elem_of_cons in Hkind.
      destruct Hkind as [->|[->|[->|[]%elem_of_nil]]]; done.
    + cbn [bind].
      apply abundance_data_labels in Hdata as [Hidx _]. rewrite Hidx.
      destruct (np_unique samples.*1) as [|go gorder]; [done|]. done.
Qed.

Lemma abundance_group_y cmap skw ikw x ig go y call :
  abundance_group cmap skw ikw x ig go y = inr call → ab_y call = y.
Proof.
  unfold abundance_group.
  destruct (match cmap with NoColors => _ | _ => _ end) as [|kw]; [done|].
  cbn [bind]. destruct skw as [other|]; [|done]. cbn [bind ret].
  destruct (decide _); [done|].
  destruct (last x); [|done]. cbn [bind ret].
  destruct (pchip_interpolate _ _ _); [done|]. cbn [bind].
  destruct ikw; [|done]. cbn [bind ret]. by intros [= <-].
Qed.

Lemma abundance_group_label cmap skw ikw x ig go y call :
  abundance_group cmap skw ikw x ig go y = inr call → ab_label call = go.
Proof.
  unfold abundance_group.
  destruct (match cmap with NoColors => _ | _ => _ end) as [|kw]; [done|].
  cbn [bind]. destruct skw as [other|]; [|done]. cbn [bind ret].
  destruct (decide _); [done|].
  destruct (last x); [|done]. cbn [bind ret].
  destruct (pchip_interpolate _ _ _); [done|]. cbn [bind].
  destruct ikw; [|done]. cbn [bind ret]. by intros [= <-].
Qed.

Lemma abundance_loop_labels cmap skw ikw data x ig gorder calls :
  abundance_loop cmap skw ikw data x ig gorder = inr calls →
  ab_label <$> calls = gorder.
Proof.
  revert ig calls. induction gorder as [|go gorder IH]; intros ig calls Hloop.
  { by injection Hloop as <-. }
  cbn [abundance_loop] in Hloop.
  destruct (abundance_group _ _ _ _ _ _ _) as [|call] eqn:Hcall; [done|].
  cbn [bind] in Hloop.
  destruct (abundance_loop _ _ _ _ _ _ gorder) as [|calls'] eqn:Hrest;
    [done|].
  cbn [bind ret] in Hloop. injection Hloop as <-.
  rewrite fmap_cons, (IH _ _ Hrest).
  by rewrite (abundance_group_label _ _ _ _ _ _ _ _ Hcall).
Qed.

Lemma abundance_loop_column cmap skw ikw data x ig gorder calls
    (j : nat) (a : string) (h : string → Q) :
  abundance_loop cmap skw ikw data x ig gorder = inr calls →
  frame_columns data !! j = Some a →
  (∀ g, g ∈ gorder →
     ∃ q, frame_cell data g a = Fin q ∧ q == h g ∧ 0 <= q) →
  ∃ qs, Forall2 (λ call q, ab_y call !! j = Some (Fin q) ∧ 0 <= q) calls qs
        ∧ Qsum qs == Qsum (h <$> gorder).
Proof.
  intros Hloop Ha. revert ig calls Hloop.
  induction gorder as [|go gorder IH]; intros ig calls Hloop Hcell.
  { injection Hloop as <-. exists []. split; [constructor|done]. }
  cbn [abundance_loop] in Hloop.
  destruct (abundance_group _ _ _ _ _ _ _) as [|call] eqn:Hcall; [done|].
  cbn [bind] in Hloop.
  destruct (abundance_loop _ _ _ _ _ _ gorder) as [|calls'] eqn:Hrest;
    [done|].
  cbn [bind ret] in Hloop. injection Hloop as <-.
  destruct (IH _ _ Hrest) as (qs & Hqs & Hsum).
  { intros g Hg. apply Hcell. by right. }
  destruct (Hcell go) as (q & Hq & Hqh & Hq0); [left|].
  exists (q :: qs). split.
  - constructor; [|done]. split; [|done].
    rewrite (abundance_group_y _ _ _ _ _ _ _ _ Hcall).
    unfold frame_row. by rewrite list_lookup_fmap, Ha, <- Hq.
  - rewrite fmap_cons. cbn [Qsum foldr]. fold (Qsum qs).
    fold (Qsum (h <$> gorder)). by rewrite Hsum, Hqh.
Qed.

Lemma Qsum_scaled (c : string → nat) (f T : Q) (l : list string) :
  Qsum ((λ g, f * nat_to_Q (c g) / T) <$> l)
  == f * nat_to_Q (sum_list (c <$> l)) / T.
Proof.
  induction l as [|g l IH].
  - cbn. change (nat_to_Q 0) with 0. unfold Qdiv. ring.
  - rewrite !fmap_cons, sum_list_cons. cbn [Qsum foldr].
    fold (Qsum ((λ g, f * nat_to_Q (c g) / T) <$> l)). rewrite IH.
    unfold nat_to_Q. rewrite Nat2Z.inj_add, inject_Z_plus.
    unfold Qdiv. ring.
Qed.

Lemma count_frame_sum (samples : list (string * string)) (a : string) :
  ∃ t, frame_sum (count_frame samples) a = Fin t
       ∧ t == nat_to_Q (length (filter (λ s, s.2 = a) samples)).
Proof.
  unfold frame_sum, np_sum. cbn [frame_index frame_cell count_frame].
  destruct (np_sum_counts (λ g, group_count samples g a)
              (np_unique samples.*1) 0) as (t & Ht & Heq).
  exists t. split; [done|]. rewrite Heq, group_count_sum.
  - lra.
  - apply np_unique_NoDup.
  - intros s Hs. apply elem_of_np_unique, list_elem_of_fmap. by exists s.
Qed.

Lemma normalized_cell (samples : list (string * string)) (f : Q)
    (g a : string) :
  0 <= f → a ∈ samples.*2 →
  let T := nat_to_Q (length (filter (λ s, s.2 = a) samples)) in
  ∃ q, fmax2 (frame_cell (frame_normalize (Fin f) (count_frame samples)) g a)
         (Fin 0) = Fin q
       ∧ q == f * nat_to_Q (group_count samples g a) / T
       ∧ 0 <= q ∧ 0 < T.
Proof.
  intros Hf Ha T.
  assert (0 < T) as HT.
  { unfold T. apply list_elem_of_fmap in Ha as (s & -> & Hs).
    assert (s ∈ filter (λ s', s'.2 = s.2) samples) as Hin
      by by apply list_elem_of_filter.
    destruct (filter _ samples) as [|s0 l]; [by apply elem_of_nil in Hin|].
    cbn [length]. pose proof (nat_to_Q_nonneg (length l)).
    rewrite nat_to_Q_S. lra. }
  cbn [frame_cell frame_normalize count_frame].
  destruct (count_frame_sum samples a) as (t & -> & Ht). fold T in Ht.
  unfold nat_to_float. cbn [fmul fdiv].
  rewrite (proj2 (is_zero_false t)) by lra.
  fold (nat_to_Q (group_count samples g a)).
  destruct (fmax2_finite (f * nat_to_Q (group_count samples g a) / t) 0)
    as (q & -> & Hq).
  pose proof (nat_to_Q_nonneg (group_count samples g a)) as Hc.
  assert (0 <= f * nat_to_Q (group_count samples g a) / t) as Hpos.
  { apply Qle_shift_div_l; [lra|]. rewrite Qmult_0_l.
    by apply Qmult_le_0_compat. }
  assert (q == f * nat_to_Q (group_count samples g a) / t) as Hq'.
  { rewrite Hq. by apply Q.max_l. }
  exists q. split_and!; [done| |lra|done].
  by rewrite Hq', Ht.
Qed.

(** X27. When plot_group_abundance_changes returns for kind 'fraction'
    (or 'percent') with the default ymin and no logarithm, there is one
    scatter call per group, in sorted order, one tick per value of the
    along column, and at every tick the plotted values of all groups are
    non-negative numbers that add up to 1 (or 100). *)
Theorem abundance_shares_add_up (samples : list (string * string))
    (along kind : string) (total : Q) (scatter interpolate : bool)
    (cmap : group_colors)
    (scatter_kwargs interpolate_kwargs : option (gmap string pval))
    (r : abundance_plot) :
  (kind, total) ∈ [("fraction", 1); ("percent", 100)] →
  plot_group_abundance_changes samples along kind scatter interpolate cmap
    scatter_kwargs interpolate_kwargs None (Fin 0) = inr r →
  ab_xticklabels r = np_unique samples.*2
  ∧ ab_label <$> ab_calls r = np_unique samples.*1
  ∧ ∀ j, (j < length (ab_xticklabels r))%nat →
      ∃ qs, Forall2 (λ call q, ab_y call !! j = Some (Fin q) ∧ 0 <= q)
              (ab_calls r) qs
            ∧ Qsum qs == total.
Proof.
  intros Hkind Hrun.
  assert (0 <= total ∧
          abundance_data ln samples kind (Fin 0) None
          = inr (frame_map (λ v, fmax2 v (Fin 0))
                   (frame_normalize (Fin total) (count_frame samples))))
    as [Htotal Hdata].
  { rewrite !elem_of_cons in Hkind.
    destruct Hkind as [[= -> ->]|[[= -> ->]|[]%elem_of_nil]];
      (split; [lra|done]). }
  unfold plot_group_abundance_changes in Hrun.
  rewrite Hdata in Hrun. cbn [bind] in Hrun.
  cbn [frame_map frame_normalize count_frame frame_index frame_columns]
    in Hrun.
  destruct (abundance_loop _ _ _ _ _ _ _) as [|calls] eqn:Hloop; [done|].
  cbn [bind ret] in Hrun. injection Hrun as <-.
  cbn [ab_xticklabels ab_calls]. split_and!; [done| |].
  { by apply abundance_loop_labels in Hloop. }
  intros j Hj. apply lookup_lt_is_Some_2 in Hj as [a Ha].
  assert (a ∈ samples.*2) as Hin.
  { apply elem_of_np_unique. by eapply list_elem_of_lookup_2. }
  set (T := nat_to_Q (length (filter (λ s, s.2 = a) samples))).
  destruct (abundance_loop_column _ _ _ _ _ _ _ _ j a
              (λ g, total * nat_to_Q (group_count samples g a) / T) Hloop)
    as (qs & Hqs & Hsum).
  { done. }
  { intros g _.
    destruct (normalized_cell samples total g a Htotal Hin)
      as (q & Hq & Heq & Hq0 & _).
    exists q. by split_and!. }
  exists qs. split; [done|]. rewrite Hsum, Qsum_scaled, group_count_sum.
  - destruct (normalized_cell samples total a a Htotal Hin)
      as (_ & _ & _ & _ & HT).
    fold T in HT |- *. revert HT. generalize T. intros d Hd. field. lra.
  - apply np_unique_NoDup.
  - intros s Hs. apply elem_of_np_unique, list_elem_of_fmap. by exists s.
Qed.
End GroupAbundanceProperties.

(** ** The driver of the test scripts *)

Section TestDriverProperties.
Variable check_call : string → gmap string string → Z.

Local Abbreviation run := (run check_call).
Local Abbreviation run_all := (run_all check_call).

(** X28. run of the test driver: it returns None without running
    anything for 'local' off the machine X260 and for 'remote' on it;
    on X260 without PYTHONPATH it raises KeyError before running
    anything; otherwise it runs the script once, returns 0 or raises
    CalledProcessError with the exit status, and the script sees
    os.environ with SINGLET_CONFIG_FILENAME set to the example file
    and, on X260 only, the singlet path put before PYTHONPATH. *)
Theorem run_outcome (node : string) (environ : gmap string string)
    (singlet_path script : string) (where_ : option string) :
  let skipped := (where_ = Some "local" ∧ node ≠ "X260")
                 ∨ (where_ = Some "remote" ∧ node = "X260") in
  (skipped →
   run node environ singlet_path script where_ = ([], inr None))
  ∧ (¬ skipped → node = "X260" →
     environ !! "PYTHONPATH" = None →
     run node environ singlet_path script where_ = ([], inl (Raised KeyError)))
  ∧ (¬ skipped →
     (node = "X260" → is_Some (environ !! "PYTHONPATH")) →
     ∃ env,
       run node environ singlet_path script where_
       = ([(script, env)],
          if decide (check_call script env = 0%Z) then inr (Some 0%Z)
          else inl (CalledProcessError (check_call script env)))
       ∧ env !! "SINGLET_CONFIG_FILENAME"
         = Some "example_data/config_example.yml"
       ∧ (∀ k, k ≠ "SINGLET_CONFIG_FILENAME" → k ≠ "PYTHONPATH" →
            env !! k = environ !! k)
       ∧ env !! "PYTHONPATH"
         = if decide (node = "X260")
           then (λ p, singlet_path +:+ ":" +:+ p) <$> environ !! "PYTHONPATH"
           else environ !! "PYTHONPATH").
Proof.
  intros skipped. unfold skipped. split_and!.
  - intros [H|H]; unfold run.
    + by rewrite decide_True.
    + destruct (decide (where_ = Some "local" ∧ node ≠ "X260")); [done|].
      by rewrite decide_True.
  - intros Hskip -> Hpath. unfold run.
    rewrite (decide_False (P := where_ = Some "local" ∧ _)) by tauto.
    rewrite (decide_False (P := where_ = Some "remote" ∧ _)) by tauto.
    rewrite decide_True by done.
    by rewrite lookup_insert_ne, Hpath by done.
  - intros Hskip Hpath. unfold run.
    rewrite (decide_False (P := where_ = Some "local" ∧ _)) by tauto.
    rewrite (decide_False (P := where_ = Some "remote" ∧ _)) by tauto.
    destruct (decide (node = "X260")) as [Hnode|Hnode].
    + destruct (Hpath Hnode) as [p Hp].
      rewrite lookup_insert_ne, Hp by done.
      eexists. split_and!.
      * f_equal. destruct (Z.eqb_spec (check_call script
          (<["PYTHONPATH" := singlet_path +:+ ":" +:+ p]>
             (<["SINGLET_CONFIG_FILENAME" :=
                  "example_data/config_example.yml"]> environ))) 0)
          as [Heq|Hne]; [by rewrite decide_True|by rewrite decide_False].
      * by rewrite lookup_insert_ne, lookup_insert_eq.
      * intros k Hk1 Hk2. by rewrite !lookup_insert_ne.
      * by rewrite lookup_insert_eq.
    + eexists. split_and!.
      * f_equal. destruct (Z.eqb_spec (check_call script
          (<["SINGLET_CONFIG_FILENAME" :=
               "example_data/config_example.yml"]> environ)) 0)
          as [Heq|Hne]; [by rewrite decide_True|by rewrite decide_False].
      * by rewrite lookup_insert_eq.
      * intros k Hk1 Hk2. by rewrite !lookup_insert_ne.
      * by rewrite lookup_insert_ne.
Qed.

Lemma run_not_skipped (node : string) (environ : gmap string string)
    (singlet_path script : string) :
  run node environ singlet_path script None
  = (let env :=
       <["SINGLET_CONFIG_FILENAME" := "example_data/config_example.yml"]>
         environ in
     match (if decide (node = "X260") then
              match env !! "PYTHONPATH" with
              | Some p =>
                  inr (<["PYTHONPATH" := singlet_path +:+ ":" +:+ p]> env)
              | None => inl (Raised KeyError)
              end
            else inr env) with
     | inl e => ([], inl e)
     | inr env =>
         ([(script, env)],
          if Z.eqb (check_call script env) 0 then inr (Some 0%Z)
          else inl (CalledProcessError (check_call script env)))
     end).
Proof.
  unfold run.
  rewrite (decide_False (P := None = Some "local" ∧ _))
    by (intros [H _]; discriminate H).
  by rewrite (decide_False (P := None = Some "remote" ∧ _))
    by (intros [H _]; discriminate H).
Qed.

Lemma run_unconditional (node : string) (environ : gmap string string)
    (singlet_path : string) :
  (node = "X260" → is_Some (environ !! "PYTHONPATH")) →
  ∃ env, ∀ script,
    run node environ singlet_path script None
    = ([(script, env)],
       if Z.eqb (check_call script env) 0 then inr (Some 0%Z)
       else inl (CalledProcessError (check_call script env))).
Proof.
  intros Hpath. destruct (decide (node = "X260")) as [Hnode|Hnode].
  - destruct (Hpath Hnode) as [p Hp]. eexists. intros script.
    rewrite run_not_skipped. cbn zeta. rewrite decide_True by done.
    by rewrite lookup_insert_ne, Hp by done.
  - eexists. intros script. rewrite run_not_skipped. cbn zeta.
    by rewrite decide_False by done.
Qed.

(** X29. The test driver hands the same environment to every script it
    runs, runs the scripts in order up to the first one that exits with
    a non-zero status, raises CalledProcessError with that status, and
    runs all of them when none fails. *)
Theorem run_all_stops_at_first_failure (node : string)
    (environ : gmap string string) (singlet_path : string)
    (scripts : list string) :
  (node = "X260" → is_Some (environ !! "PYTHONPATH")) →
  ∃ env,
    match list_find (λ s, check_call s env ≠ 0%Z) scripts with
    | Some (i, s) =>
        run_all node environ singlet_path scripts
        = ((λ s', (s', env)) <$> take (S i) scripts,
           inl (CalledProcessError (check_call s env)))
    | None =>
        run_all node environ singlet_path scripts
        = ((λ s', (s', env)) <$> scripts, inr ())
    end.
Proof.
  intros Hpath.
  destruct (run_unconditional node environ singlet_path Hpath)
    as [env Hrun].
  exists env. induction scripts as [|s scripts IH]; [done|].
  cbn [run_all list_find]. rewrite Hrun.
  destruct (Z.eqb_spec (check_call s env) 0) as [Heq|Hne].
  - rewrite decide_False by (by intros ?).
    destruct (list_find _ scripts) as [[i s']|]; cbn [fmap option_fmap
      option_map prod_map fst snd id]; rewrite IH; done.
  - rewrite decide_True by done. done.
Qed.
End TestDriverProperties.

(** ** Worked examples *)

Lemma categorical_ignores_numeric_options_witness :
  scatter_reduced ex_log10 ex_named_rgb ex_get_cmap ex_labelled 3
    (Some "kind") None (ByName "viridis") (Named "darkgrey") None false ∅
  = scatter_reduced ex_log10 ex_named_rgb ex_get_cmap ex_labelled 3
      (Some "kind") (Some true) (ByName "viridis") (Named "darkgrey") None
      true ∅.
Proof.
  apply (categorical_ignores_numeric_options ex_log10 ex_named_rgb
           ex_get_cmap ex_labelled 3 "kind" ["b"; "a"; "b"]).
  apply lookup_singleton_eq.
Defined.

Lemma plain_scatter_draws_once_witness :
  ∃ ax' calls,
    scatter_reduced ex_log10 ex_named_rgb ex_get_cmap ex_sheet 3
      (Some "score") None (Colormap ex_cmap) (Named "darkgrey") None false ∅
    = inr ax'
    ∧ scattered ax' = calls ∧ concat (rows <$> calls) = [0; 1; 2]%nat.
Proof.
  assert (∃ ax',
    scatter_reduced ex_log10 ex_named_rgb ex_get_cmap ex_sheet 3
      (Some "score") None (Colormap ex_cmap) (Named "darkgrey") None false ∅
    = inr ax') as [ax' Hax'].
  { eexists. vm_compute. reflexivity. }
  destruct (plain_scatter_draws_once ex_log10 ex_named_rgb ex_get_cmap
              ex_sheet 3 "score" None (Colormap ex_cmap) (Named "darkgrey")
              None ∅ ax' Hax')
    as (src & cs & calls & _ & _ & Hcalls & _ & Hrows & _).
  exists ax', calls. split; [exact Hax'|]. split; [exact Hcalls|exact Hrows].
Defined.



Lemma ex_points_shaded (vmin vmax : bound) (vm vM : float64) :
  resolve_bound np_min vmin ex_points "gene" = inr vm →
  resolve_bound np_max vmax ex_points "gene" = inr vM →
  shade_points vmin vmax (Fin 2) ["g"] ["g"] ["gene"] ex_points
  = inr (<[("gene", "g") := {| fraction := Fin 1; level := Fin 2;
                               pt_s := size_fun (Fin 2) (Fin 1);
                               pt_c := normalize (Fin 2) vm vM |}]>
           ex_points).
Proof.
  intros Hvm HvM. cbn [shade_points]. rewrite Hvm, HvM. cbn [bind ret].
  unfold ex_points at 1.
  rewrite (shade_groups_one (Fin 2) vm vM ["g"] "gene" "g" _ _
             (list_elem_of_here _ _) (lookup_singleton_eq _ _)).
  reflexivity.
Qed.

Lemma levels_ex_points : levels ex_points = [Fin 2].
Proof. unfold levels, ex_points. by rewrite map_to_list_singleton. Qed.

Lemma shade_points_keeps_data_witness :
  ∃ points' p',
    shade_points (Given (Fin 0)) (Given (Fin 1)) (Fin 2) ["g"] ["g"] ["gene"]
      ex_points = inr points'
    ∧ points' !! ("gene", "g") = Some p'
    ∧ fraction p' = Fin 1 ∧ level p' = Fin 2.
Proof.
  pose proof (ex_points_shaded (Given (Fin 0)) (Given (Fin 1)) (Fin 0) (Fin 1)
                eq_refl eq_refl) as Hr.
  destruct (shade_points_keeps_data _ _ _ _ _ _ _ _ Hr) as [_ Hkeep].
  destruct (Hkeep _ _ (lookup_insert_eq _ _ _)) as (p & Hp & Hf & Hl).
  unfold ex_points in Hp. rewrite lookup_singleton_eq in Hp.
  injection Hp as <-.
  eexists _, _. split; [exact Hr|]. split; [apply lookup_insert_eq|].
  split; [exact Hf|exact Hl].
Defined.

Lemma shade_points_closed_form_witness :
  ∃ points' p,
    shade_points Overall (Given (Fin 4)) (Fin 2) ["g"] ["g"] ["gene"]
      ex_points = inr points'
    ∧ ex_points !! ("gene", "g") = Some p
    ∧ points' !! ("gene", "g") = Some (shaded (Fin 2) (Fin 2) (Fin 4) p).
Proof.
  assert (resolve_bound np_min Overall ex_points "gene" = inr (Fin 2)) as Hvm.
  { cbn [resolve_bound]. by rewrite levels_ex_points. }
  pose proof (ex_points_shaded Overall (Given (Fin 4)) (Fin 2) (Fin 4)
                Hvm eq_refl) as Hr.
  destruct (shade_points_closed_form _ _ _ _ _ _ _ _ Hr) as [Hin _].
  destruct (Hin "gene" (list_elem_of_here _ _))
    as (vm & vM & Hm & HM & Hshaded).
  destruct (Hshaded "g" (list_elem_of_here _ _) (list_elem_of_here _ _))
    as (p & Hp & Hp').
  rewrite Hvm in Hm. injection Hm as <-. injection HM as <-.
  eexists _, p. split; [exact Hr|]. split; [exact Hp|exact Hp'].
Defined.

Lemma overall_shades_in_unit_witness :
  ∃ points' p',
    shade_points Overall Overall (Fin 2) ["g"] ["g"] ["gene"] ex_points
    = inr points'
    ∧ points' !! ("gene", "g") = Some p'
    ∧ pt_c p' = NaN
    ∧ ∀ k p, ex_points !! k = Some p → feq (level p) (level p').
Proof.
  assert (resolve_bound np_min Overall ex_points "gene" = inr (Fin 2)) as Hvm.
  { cbn [resolve_bound]. by rewrite levels_ex_points. }
  assert (resolve_bound np_max Overall ex_points "gene" = inr (Fin 2)) as HvM.
  { cbn [resolve_bound]. by rewrite levels_ex_points. }
  pose proof (ex_points_shaded Overall Overall (Fin 2) (Fin 2) Hvm HvM) as Hr.
  assert (∀ k p, ex_points !! k = Some p → finite (level p)) as Hfin.
  { unfold ex_points. intros k p [_ <-]%lookup_singleton_Some. by eexists. }
  pose proof (overall_shades_in_unit _ _ _ _ _ _ Hr Hfin "gene" "g" _
                (list_elem_of_here _ _) (list_elem_of_here _ _)
                (list_elem_of_here _ _) (lookup_insert_eq _ _ _)) as Hunit.
  eexists _, _. split; [exact Hr|]. split; [apply lookup_insert_eq|].
  split; [reflexivity|exact Hunit].
Defined.

Lemma explicit_palette_needs_named_before_witness :
  ∃ r j key s,
    annotate_loop ex_get_cmap ex_color_palette ex_labelled None
      [("kind", Name "Set1"); ("kind", Colors [Named "red"; Named "blue"])]
    = inr r
    ∧ (j < 1)%nat
    ∧ [("kind", Name "Set1"); ("kind", Colors [Named "red"; Named "blue"])]
      !! j = Some (key, Name s).
Proof.
  assert (∃ r,
    annotate_loop ex_get_cmap ex_color_palette ex_labelled None
      [("kind", Name "Set1"); ("kind", Colors [Named "red"; Named "blue"])]
    = inr r) as [r Hr].
  { eexists. vm_compute. reflexivity. }
  destruct (explicit_palette_needs_named_before ex_get_cmap ex_color_palette
              ex_labelled _ r Hr 1%nat "kind" [Named "red"; Named "blue"]
              ["b"; "a"; "b"] eq_refl (lookup_singleton_eq _ _))
    as (j & key & s & values & Hj & Hitem & _).
  exists r, j, key, s. split; [exact Hr|]. split; [exact Hj|exact Hitem].
Defined.

Lemma explicit_palette_colorbar_fails_witness :
  ∃ e,
    clustermap_samples ex_get_cmap ex_color_palette ex_labelled
      (Some [("kind", Name "Set1");
             ("kind", Colors [Named "red"; Named "blue"])])
      "horizontal" true = inl e.
Proof.
  apply (explicit_palette_colorbar_fails ex_get_cmap ex_color_palette
           ex_labelled _ "horizontal" "kind" [Named "red"; Named "blue"]
           ["b"; "a"; "b"]).
  - right. left.
  - apply lookup_singleton_eq.
Defined.

Lemma colorbar_layout_witness :
  ∃ cbs cb pos,
    draw_colorbars true
      [Sequential "score" ex_cmap (Fin 0) (Fin 1);
       Qualitative "kind" [Named "red"; Named "blue"] (Some ["a"; "b"]) 2]
    = inr cbs
    ∧ cbs !! 1%nat = Some cb
    ∧ cax_of cb = box_at true (Qmin (3 # 10) ((4 # 10) / nat_to_Q 2)) pos
    ∧ pos + (2 # 10) == 98 # 100.
Proof.
  assert (∃ cbs,
    draw_colorbars true
      [Sequential "score" ex_cmap (Fin 0) (Fin 1);
       Qualitative "kind" [Named "red"; Named "blue"] (Some ["a"; "b"]) 2]
    = inr cbs) as [cbs Hdraw].
  { eexists. vm_compute. reflexivity. }
  destruct (colorbar_layout true _ cbs Hdraw) as (Hlen & _ & Hbox & _).
  destruct (lookup_lt_is_Some_2 cbs 1) as [cb Hcb].
  { rewrite Hlen. cbn. lia. }
  destruct (Hbox 1%nat cb Hcb) as (pos & Hcax & Hpos).
  exists cbs, cb, pos. split; [exact Hdraw|]. split; [exact Hcb|].
  split; [exact Hcax|]. rewrite Hpos. vm_compute. reflexivity.
Defined.


Lemma abundance_needs_keyword_dicts_witness :
  plot_group_abundance_changes ex_ln ex_pchip
    [("a", "t0"); ("b", "t0"); ("a", "t1")] "time" "number" true false
    NoColors None None None (Fin 0) = inl TypeError.
Proof.
  apply (abundance_needs_keyword_dicts ex_ln ex_pchip
           [("a", "t0"); ("b", "t0"); ("a", "t1")] "time" "number" true false
           NoColors None None None (Fin 0)).
  - done.
  - by left.
  - reflexivity.
  - reflexivity.
  - left.
Defined.

Lemma abundance_shares_add_up_witness :
  ∃ r qs,
    plot_group_abundance_changes ex_ln ex_pchip
      [("a", "t0"); ("b", "t0"); ("a", "t1")] "time" "fraction" true false
      NoColors (Some ∅) (Some ∅) None (Fin 0) = inr r
    ∧ Forall2 (λ call q, ab_y call !! 0%nat = Some (Fin q) ∧ 0 <= q)
        (ab_calls r) qs
    ∧ Qsum qs == 1.
Proof.
  assert (∃ r,
    plot_group_abundance_changes ex_ln ex_pchip
      [("a", "t0"); ("b", "t0"); ("a", "t1")] "time" "fraction" true false
      NoColors (Some ∅) (Some ∅) None (Fin 0) = inr r) as [r Hr].
  { eexists. vm_compute. reflexivity. }
  destruct (abundance_shares_add_up ex_ln ex_pchip _ _ "fraction" 1 _ _ _ _ _
              r (list_elem_of_here _ _) Hr) as (Hticks & _ & Hsum).
  destruct (Hsum 0%nat) as (qs & Hqs & Htotal).
  { rewrite Hticks. vm_compute. lia. }
  exists r, qs. split; [exact Hr|]. split; [exact Hqs|exact Htotal].
Defined.

Lemma run_all_stops_at_first_failure_witness :
  ∃ env,
    run_all ex_check_call "laptop" ∅ "/home/singlet" ["true"; "false"; "true"]
    = ([("true", env); ("false", env)], inl (CalledProcessError 1)).
Proof.
  destruct (run_all_stops_at_first_failure ex_check_call "laptop" ∅
              "/home/singlet" ["true"; "false"; "true"]) as [env Hrun].
  { intros H. discriminate H. }
  exists env.
  assert (list_find (λ s, ex_check_call s env ≠ 0%Z) ["true"; "false"; "true"]
          = Some (1%nat, "false")) as Hfind.
  { apply list_find_Some. split; [reflexivity|]. split; [done|].
    intros [|[|j]] y Hy Hlt; [|lia..]. injection Hy as <-. by intros H. }
  rewrite Hfind in Hrun. exact Hrun.
Defined.
